(** * SeerAPI/config-sources: [_scripts/update_config.py]

    A shallow embedding of the record handlers, the key annotator, the
    Flash extraction loop and the update driver of [update_config.py],
    together with the properties the specification states about them.

    Python values are modelled at two levels.  [value] is an immutable
    tree: it is what [add_at_prefix_to_keys] reads and what it returns
    (the function only reads its argument and builds fresh containers).
    [heap] is a store of mutable [dict] and [list] objects addressed by
    references: it is what the record handlers work on, because they
    update the decoded objects in place and the decoder may hand out the
    same object more than once.

    The collaborators that are not part of the script ([zlib], the
    container scanner and the object reader of [_swf_handle],
    [xmltodict], the network) are parameters of the model or inputs of
    the world it acts on.

    The file has two parts: the embedding and the statements, then the
    properties. *)

From Stdlib Require Import ZArith String Ascii List Bool Lia.
From stdpp Require Import base option list gmap strings.

Import ListNotations.
Open Scope string_scope.
Open Scope list_scope.

Set Warnings "-register-all".

(** ** Python values *)

(** Scalars decoded from an object stream (floating-point numbers and
    dates are outside the model). *)
Inductive scalar : Type :=
  | PyNone
  | PyBool (b : bool)
  | PyInt (z : Z)
  | PyStr (s : string).

(** Immutable trees.  A [dict] keeps its insertion order, so it is an
    association list; the operations below keep its keys distinct. *)
Inductive value : Type :=
  | VScalar (s : scalar)
  | VList (l : list value)
  | VDict (d : list (string * value)).

Definition bytes : Type := list Byte.byte.

(** Exceptions the modelled code can raise. *)
Inductive exn : Type :=
  | KeyError (k : string)
  | TypeError
  | AttributeError
  | RecursionError
  | FileNotFoundError
  | ExternalError (tag : string).

Inductive result (A : Type) : Type :=
  | Ok (a : A)
  | Raise (e : exn).
Arguments Ok {A} a.
Arguments Raise {A} e.

Module Dict.

(** [d[k] = v]: an existing key keeps its position and gets the new
    value, a new key goes to the end. *)
Fixpoint set {A : Type} (d : list (string * A)) (k : string) (v : A)
  : list (string * A) :=
  match d with
  | [] => [(k, v)]
  | (k', v') :: d' =>
      if String.eqb k' k then (k', v) :: d' else (k', v') :: set d' k v
  end.

(** [d.get(k)] *)
Fixpoint get {A : Type} (d : list (string * A)) (k : string) : option A :=
  match d with
  | [] => None
  | (k', v') :: d' => if String.eqb k' k then Some v' else get d' k
  end.

(** [del d[k]] on the association list: the entry goes, the others
    keep their order. *)
Fixpoint remove {A : Type} (d : list (string * A)) (k : string)
  : list (string * A) :=
  match d with
  | [] => []
  | (k', v') :: d' =>
      if String.eqb k' k then d' else (k', v') :: remove d' k
  end.

Definition keys {A : Type} (d : list (string * A)) : list string :=
  fst <$> d.

End Dict.

(** ** The key annotator *)

(** [add_at_prefix_to_keys], lines 75-98.  [result] starts empty and is
    filled by [result[key] = ...] or [result[new_key] = ...] while the
    entries of [data] are visited in order. *)
Fixpoint add_at_prefix_to_keys (data : value) : value :=
  match data with
  | VDict d =>
      VDict
        (fold_left
           (fun result (entry : string * value) =>
              let (key, v) := entry in
              let new_key := String.append "@" key in
              match v with
              | VList l =>
                  Dict.set result key (VList (add_at_prefix_to_keys <$> l))
              | VDict _ =>
                  Dict.set result new_key (add_at_prefix_to_keys v)
              | VScalar _ =>
                  Dict.set result new_key v
              end)
           d [])
  | VList l => VList (add_at_prefix_to_keys <$> l)
  | VScalar _ => data
  end.

(** The key rule of the annotator, entry by entry. *)
Definition is_list (v : value) : bool :=
  match v with VList _ => true | _ => false end.

Definition annotated_key (entry : string * value) : string :=
  if is_list (snd entry) then fst entry else String "@" (fst entry).

Definition annotated_entry (entry : string * value) : string * value :=
  (annotated_key entry, add_at_prefix_to_keys (snd entry)).

(** The property the specification states for one application of the
    annotator to [data] with outcome [out]. *)
Definition annotator_key_rule (data out : value) : Prop :=
  match data with
  | VScalar _ => out = data
  | VList l => out = VList (add_at_prefix_to_keys <$> l)
  | VDict d =>
      exists d',
        out = VDict d' /\
        Dict.keys d' = annotated_key <$> d /\
        forall k v, (k, v) ∈ d ->
          match v with
          | VList l =>
              Dict.get d' k = Some (VList (add_at_prefix_to_keys <$> l))
          | _ =>
              Dict.get d' (String "@" k) = Some (add_at_prefix_to_keys v)
          end
  end.

(** One pass of the loop of lines 79-91, as a function of the entry. *)
Definition annotate_step (result : list (string * value))
    (entry : string * value) : list (string * value) :=
  Dict.set result (annotated_key entry) (add_at_prefix_to_keys (snd entry)).


(** ** The object store *)

(** A state-and-exception monad: the state is kept when an exception is
    raised, as the effects of a Python call are. *)
Definition SE (S A : Type) : Type := S -> result A * S.

Definition raise {S A : Type} (e : exn) : SE S A := fun s => (Raise e, s).

#[global] Instance SE_ret {S : Type} : MRet (SE S) :=
  fun A a s => (Ok a, s).

#[global] Instance SE_bind {S : Type} : MBind (SE S) :=
  fun A B f m s =>
    match m s with
    | (Ok a, s') => f a s'
    | (Raise e, s') => (Raise e, s')
    end.

(** A Python value as a variable holds it: a scalar, or a reference to a
    mutable object. *)
Inductive hval : Type :=
  | HScalar (s : scalar)
  | HRef (a : nat).

Inductive obj : Type :=
  | ODict (d : list (string * hval))
  | OList (l : list hval).

(** The store is an arena: an object's address is its index, and a new
    object goes to the end. *)
Abbreviation heap := (list obj).

Abbreviation M := (SE heap).

(** [Stuck] marks a reference outside the store; Python has no such
    state.  [OutOfSteps] marks a loop the model stopped following. *)
Definition Stuck : exn := ExternalError "stuck".
Definition OutOfSteps : exn := ExternalError "out of steps".

(** [o[k]] *)
Definition subscript (o : hval) (k : string) : M hval :=
  fun h =>
    match o with
    | HScalar _ => (Raise TypeError, h)
    | HRef a =>
        match h !! a with
        | Some (ODict d) =>
            match Dict.get d k with
            | Some v => (Ok v, h)
            | None => (Raise (KeyError k), h)
            end
        | Some (OList _) => (Raise TypeError, h)
        | None => (Raise Stuck, h)
        end
    end.

(** [o[k] = v] *)
Definition setitem (o : hval) (k : string) (v : hval) : M unit :=
  fun h =>
    match o with
    | HScalar _ => (Raise TypeError, h)
    | HRef a =>
        match h !! a with
        | Some (ODict d) => (Ok tt, <[a := ODict (Dict.set d k v)]> h)
        | Some (OList _) => (Raise TypeError, h)
        | None => (Raise Stuck, h)
        end
    end.

(** [[]]: a new empty list. *)
Definition new_list : M hval :=
  fun h => (Ok (HRef (length h)), h ++ [OList []]).

(** [o.append(v)] *)
Definition append (o : hval) (v : hval) : M unit :=
  fun h =>
    match o with
    | HScalar _ => (Raise AttributeError, h)
    | HRef a =>
        match h !! a with
        | Some (OList l) => (Ok tt, <[a := OList (l ++ [v])]> h)
        | Some (ODict _) => (Raise AttributeError, h)
        | None => (Raise Stuck, h)
        end
    end.

(** [o.pop(k)] with a string [k] *)
Definition pop (o : hval) (k : string) : M hval :=
  fun h =>
    match o with
    | HScalar _ => (Raise AttributeError, h)
    | HRef a =>
        match h !! a with
        | Some (ODict d) =>
            match Dict.get d k with
            | Some v => (Ok v, <[a := ODict (Dict.remove d k)]> h)
            | None => (Raise (KeyError k), h)
            end
        | Some (OList _) => (Raise TypeError, h)
        | None => (Raise Stuck, h)
        end
    end.

(** The hashable values: a [dict] or a [list] used as a key raises. *)
Definition hash_key (v : hval) : M scalar :=
  match v with
  | HScalar s => mret s
  | HRef _ => raise TypeError
  end.

(** Equality of keys: [True == 1] and [False == 0]. *)
Definition key_eqb (x y : scalar) : bool :=
  match x, y with
  | PyNone, PyNone => true
  | PyBool a, PyBool b => Bool.eqb a b
  | PyBool a, PyInt z | PyInt z, PyBool a => Z.eqb (Z.b2z a) z
  | PyInt a, PyInt b => Z.eqb a b
  | PyStr a, PyStr b => String.eqb a b
  | _, _ => false
  end.

(** [k in result] *)
Definition contains (result : list (scalar * hval)) (k : scalar) : bool :=
  existsb (fun e => key_eqb (fst e) k) result.

(** [iter(data)] at position [i]: the elements of a list, the keys of a
    [dict], the characters of a string; nothing else is iterable. *)
Definition iter_next (data : hval) (i : nat) : M (option hval) :=
  fun h =>
    match data with
    | HScalar (PyStr s) =>
        (Ok (match get i s with
             | Some c => Some (HScalar (PyStr (String c EmptyString)))
             | None => None
             end), h)
    | HScalar _ => (Raise TypeError, h)
    | HRef a =>
        match h !! a with
        | Some (OList l) => (Ok (l !! i), h)
        | Some (ODict d) =>
            (Ok (HScalar <$> (PyStr <$> (Dict.keys d !! i))), h)
        | None => (Raise Stuck, h)
        end
    end.

(** The tree below a value, as a traversal of at most [limit] nested
    containers reads it: the argument [add_at_prefix_to_keys] and the
    writer see.  A cyclic structure exhausts every [limit]. *)
Fixpoint mapM_result {A B : Type} (f : A -> result B) (l : list A)
  : result (list B) :=
  match l with
  | [] => Ok []
  | x :: l' =>
      match f x with
      | Ok y =>
          match mapM_result f l' with
          | Ok ys => Ok (y :: ys)
          | Raise e => Raise e
          end
      | Raise e => Raise e
      end
  end.

Fixpoint reify (limit : nat) (h : heap) (v : hval) : result value :=
  match v with
  | HScalar s => Ok (VScalar s)
  | HRef a =>
      match limit with
      | O => Raise RecursionError
      | S limit' =>
          match h !! a with
          | Some (OList l) =>
              match mapM_result (reify limit' h) l with
              | Ok vs => Ok (VList vs)
              | Raise e => Raise e
              end
          | Some (ODict d) =>
              match
                mapM_result
                  (fun e : string * hval =>
                     match reify limit' h (snd e) with
                     | Ok t => Ok (fst e, t)
                     | Raise x => Raise x
                     end) d
              with
              | Ok es => Ok (VDict es)
              | Raise e => Raise e
              end
          | None => Raise Stuck
          end
      end
  end.

Definition read_tree (limit : nat) (v : hval) : M value :=
  fun h => (reify limit h v, h).

Definition read_trees (limit : nat) (vs : list hval) : M (list value) :=
  fun h => (mapM_result (reify limit h) vs, h).

(** ** The record handlers *)

(** The body of the loop of [handle_item_xml_info], lines 42-50. *)
Definition item_body (obj : hval) (result : list (scalar * hval))
  : M (list (scalar * hval)) :=
  cat_obj ← subscript obj "catObj";
  cat_id ← subscript cat_obj "ID";
  key ← hash_key cat_id;
  result' ←
    (if contains result key then mret result
     else
       empty ← new_list;
       setitem cat_obj "item" empty ;;
       mret (result ++ [(key, cat_obj)]));
  item ← subscript obj "itemObj";
  setitem item "CatID" cat_id ;;
  items ← subscript cat_obj "item";
  append items item ;;
  mret result'.

(** [for obj in data: ...], following the list as the loop changes the
    store; [steps] bounds the number of passes. *)
Fixpoint item_loop (steps : nat) (data : hval) (i : nat)
    (result : list (scalar * hval)) : M (list (scalar * hval)) :=
  match steps with
  | O => raise OutOfSteps
  | S steps' =>
      next ← iter_next data i;
      match next with
      | None => mret result
      | Some obj =>
          result' ← item_body obj result;
          item_loop steps' data (S i) result'
      end
  end.

(** [handle_item_xml_info], lines 39-52. *)
Definition handle_item_xml_info (steps limit : nat) (data : hval)
  : M value :=
  result ← item_loop steps data 0 [];
  values ← read_trees limit (snd <$> result);
  mret (VDict [("root",
               add_at_prefix_to_keys (VDict [("items", VList values)]))]).

(** [_delete_class], lines 56-58. *)
Definition _delete_class (obj : hval) : M hval :=
  pop obj "__class__" ;;
  mret obj.

(** [[f(obj) for obj in data]] where [f] changes no list, no key of a
    [dict] it is not given and no string: the elements are those [data]
    has when the comprehension starts. *)
Definition elements (data : hval) : M (list hval) :=
  fun h =>
    match data with
    | HScalar (PyStr s) =>
        (Ok ((fun c => HScalar (PyStr (String c EmptyString))) <$> list_ascii_of_string s), h)
    | HScalar _ => (Raise TypeError, h)
    | HRef a =>
        match h !! a with
        | Some (OList l) => (Ok l, h)
        | Some (ODict d) => (Ok (HScalar <$> (PyStr <$> Dict.keys d)), h)
        | None => (Raise Stuck, h)
        end
    end.

Fixpoint for_each {A B : Type} (f : A -> M B) (l : list A) : M (list B) :=
  match l with
  | [] => mret []
  | x :: l' =>
      y ← f x;
      ys ← for_each f l';
      mret (y :: ys)
  end.

(** [handle_gold_product_xml_info], lines 55-60. *)
Definition handle_gold_product_xml_info (limit : nat) (data : hval)
  : M value :=
  objs ← elements data;
  stripped ← for_each _delete_class objs;
  item ← read_trees limit stripped;
  mret (VDict [("root",
               add_at_prefix_to_keys (VDict [("item", VList item)]))]).

(** [handle_skill_xml_info], lines 63-64. *)
Definition handle_skill_xml_info (limit : nat) (data : hval) : M value :=
  item ← read_tree limit data;
  mret (VDict [("root", add_at_prefix_to_keys (VDict [("item", item)]))]).

(** [AMF3_DATA_HANDLERS], lines 67-71. *)
Definition AMF3_DATA_HANDLERS (steps limit : nat) (key : string)
  : option (hval -> M value) :=
  if String.eqb key "com.robot.core.config.xml.ItemXMLInfo_xmlClass"
  then Some (handle_item_xml_info steps limit)
  else if String.eqb key "com.robot.core.config.xml.GoldProductXMLInfo_xmlClass"
  then Some (handle_gold_product_xml_info limit)
  else if String.eqb key "com.robot.core.config.xml.SkillXMLInfo_xmlClass"
  then Some (handle_skill_xml_info limit)
  else None.

(** ** Files, the network and the update run *)

#[global] Instance result_ret : MRet result := fun A a => Ok a.

#[global] Instance result_bind : MBind result :=
  fun A B f m =>
    match m with
    | Ok a => f a
    | Raise e => Raise e
    end.

(** The calls the properties speak of ([print] is not recorded). *)
Inductive event : Type :=
  | EvDecompress (data : bytes)
  | EvReadObject (data : bytes)
  | EvCommit (name remote_version : string)
  | EvPush.

(** What the script acts on: the files it writes, the answers the
    network still has to give (one per request, in order), and the
    calls made so far. *)
Record world : Type := World {
  files : gmap string bytes;
  responses : list (result bytes);
  trace : list event;
}.

Abbreviation IO := (SE world).

Definition lift {A : Type} (r : result A) : IO A := fun w => (r, w).

Definition log (e : event) : IO unit :=
  fun w => (Ok tt, World (files w) (responses w) (trace w ++ [e])).

(** [Path(path).write_bytes(content)] *)
Definition write_bytes (path : string) (content : bytes) : IO unit :=
  fun w => (Ok tt, World (<[path := content]> (files w)) (responses w) (trace w)).

(** [httpx.get(url)] followed by [raise_for_status()]: the body of the
    answer, or the error of the request. *)
Definition httpx_get (url : string) : IO bytes :=
  fun w =>
    match responses w with
    | [] => (Raise (ExternalError "network"), w)
    | r :: rest => (r, World (files w) rest (trace w))
    end.

(** Text is kept as its UTF-8 bytes. *)
Definition encode_utf8 (s : string) : bytes := list_byte_of_string s.
Definition decode_utf8 (b : bytes) : string := string_of_list_byte b.

(** Reading in text mode, as [Path.read_text] does: a carriage return,
    alone or followed by a line feed, is read as one line feed.
    ([Path.write_text] writes a line feed as it is on POSIX.) *)
Definition carriage_return : ascii := Ascii.ascii_of_nat 13.
Definition line_feed : ascii := Ascii.ascii_of_nat 10.

Fixpoint universal_newlines (s : string) : string :=
  match s with
  | EmptyString => EmptyString
  | String c rest =>
      if Ascii.eqb c carriage_return then
        match rest with
        | String c' rest' =>
            if Ascii.eqb c' line_feed
            then String line_feed (universal_newlines rest')
            else String line_feed (universal_newlines rest)
        | EmptyString => String line_feed EmptyString
        end
      else String c (universal_newlines rest)
  end.

Fixpoint bytes_eqb (x y : bytes) : bool :=
  match x, y with
  | [], [] => true
  | a :: x', b :: y' => Byte.eqb a b && bytes_eqb x' y'
  | _, _ => false
  end.

Definition path_join (dir name : string) : string :=
  String.append dir (String "/" name).

Definition FLASH_VERSION_CHECK_URL : string :=
  "https://seer.61.com/version/zzz_config.txt".

(** [class Platform], lines 110-140.  The two abstract methods are the
    fields of the record. *)
Record Platform : Type := {
  work_dir : string;
  get_remote_version : IO string;
  get_configs : IO unit;
}.

Definition VERSION_FILE_NAME : string := ".version".

Definition version_file_path (p : Platform) : string :=
  path_join (work_dir p) VERSION_FILE_NAME.

(** Lines 169-170: the tree handed to the writer, given the decoded
    value and the objects it is made of. *)
Definition segment_tree (steps limit : nat) (key : string)
    (decoded : hval * heap) : result value :=
  match AMF3_DATA_HANDLERS steps limit key with
  | Some handler => fst (handler (fst decoded) (snd decoded))
  | None => reify limit (snd decoded) (fst decoded)
  end.

Definition zlib_magic : bytes := [Byte.x78; Byte.xda].

Section Update.

(** [str.strip] *)
Variable str_strip : string -> string.

(** [zlib.decompress] *)
Variable zlib_decompress : bytes -> result bytes.

(** [extract_swf_data] and [extract_binary_data] of [_swf_handle]: the
    tagged records of an inflated container, and the named segments
    among them, in order. *)
Variable swf_records : Type.
Variable extract_swf_data : bytes -> result swf_records.
Variable extract_binary_data : swf_records -> result (list (string * bytes)).

(** [AMF3Reader(...).read_object()] of [_swf_handle]: the decoded
    value and the objects it is made of. *)
Variable AMF3Reader_read_object : bytes -> result (hval * heap).

(** [xmltodict.unparse(data, pretty=True, full_document=False)] *)
Variable dict_to_xml : value -> result string.

(** The file name of a segment: [re.sub] and [strip('_')] of lines
    173-176. *)
Variable config_file_name : string -> string.

(** The bounds of the handlers' loop and of the traversals. *)
Variables (steps limit : nat).

(** [Platform.get_local_version], lines 127-130.  [read_text] opens
    the file as text: the line ends are translated before [strip] sees
    them. *)
Definition get_local_version (p : Platform) : IO string :=
  fun w =>
    match files w !! version_file_path p with
    | None => (Raise FileNotFoundError, w)
    | Some content =>
        (Ok (str_strip (universal_newlines (decode_utf8 content))), w)
    end.

(** [Platform.save_remote_version], lines 132-133. *)
Definition save_remote_version (p : Platform) : IO unit :=
  version ← get_remote_version p;
  write_bytes (version_file_path p) (encode_utf8 version).

(** [Platform.check_update], lines 135-140. *)
Definition check_update (p : Platform) : IO bool :=
  fun w =>
    match get_local_version p w with
    | (Raise FileNotFoundError, w') => (Ok true, w')
    | (Raise e, w') => (Raise e, w')
    | (Ok local_version, w') =>
        (remote ← get_remote_version p;
         mret (negb (String.eqb local_version remote))) w'
    end.

(** [Flash.extract_configs_from_swf], lines 144-148. *)
Definition extract_configs_from_swf (swf : bytes)
  : result (list (string * bytes)) :=
  decompressed ← zlib_decompress (drop 7 swf);
  swf_data ← extract_swf_data decompressed;
  extract_binary_data swf_data.

(** Lines 165-172: what becomes of the bytes of one segment. *)
Definition segment_content (key : string) (value : bytes) : IO bytes :=
  if bytes_eqb (take 2 value) zlib_magic then
    log (EvDecompress value) ;;
    inflated ← lift (zlib_decompress value);
    log (EvReadObject inflated) ;;
    decoded ← lift (AMF3Reader_read_object inflated);
    tree ← lift (segment_tree steps limit key decoded);
    xml ← lift (dict_to_xml tree);
    mret (encode_utf8 xml)
  else mret value.

Definition segment_path (dir key : string) : string :=
  path_join dir (String.append (config_file_name key) ".xml").

(** The body of the loop of lines 164-177. *)
Definition write_segment (dir key : string) (value : bytes) : IO unit :=
  content ← segment_content key value;
  write_bytes (segment_path dir key) content.

Fixpoint write_segments (dir : string) (swf_configs : list (string * bytes))
  : IO unit :=
  match swf_configs with
  | [] => mret tt
  | (key, value) :: rest =>
      write_segment dir key value ;;
      write_segments dir rest
  end.

(** [Flash.get_configs], lines 157-177. *)
Definition Flash_get_configs (dir : string) : IO unit :=
  swf ← httpx_get "https://seer.61.com/dll/RobotCoreDLL.swf";
  swf_configs ← lift (extract_configs_from_swf swf);
  write_segments dir swf_configs.

(** [class Flash], lines 143-177. *)
Definition Flash (dir : string) : Platform :=
  {| work_dir := dir;
     get_remote_version :=
       text ← httpx_get FLASH_VERSION_CHECK_URL;
       mret (decode_utf8 text);
     get_configs := Flash_get_configs dir |}.

(** The body of the loop of [main], lines 298-310. *)
Definition update_platform (name : string) (p : Platform) : IO unit :=
  remote_version ← get_remote_version p;
  outdated ← check_update p;
  if negb outdated then
    mret tt
  else
    get_configs p ;;
    save_remote_version p ;;
    log (EvCommit name remote_version).

Fixpoint update_platforms (platforms : list (string * Platform)) : IO unit :=
  match platforms with
  | [] => mret tt
  | (name, p) :: rest =>
      update_platform name p ;;
      update_platforms rest
  end.

Definition committed (e : event) : bool :=
  match e with EvCommit _ _ => true | _ => false end.

(** [main], lines 283-318; the other two platforms are given. *)
Definition main (html5 unity : Platform) : IO unit :=
  fun w =>
    let platforms :=
      [("flash", Flash "flash"); ("html5", html5); ("unity", unity)] in
    match update_platforms platforms w with
    | (Ok _, w') =>
        if existsb committed (drop (length (trace w)) (trace w'))
        then log EvPush w'
        else (Ok tt, w')
    | (Raise e, w') => (Raise e, w')
    end.

End Update.

(** ** Statements and sample data *)

(** The key annotator as the specification words it: every entry of a
    map is rewritten on its own, a key of a list stays bare, any other
    key gets one leading ["@"], and the values are rewritten in turn. *)
Fixpoint annotate_spec (t : value) : value :=
  match t with
  | VDict d =>
      VDict
        ((fun e : string * value =>
            (if is_list (snd e) then fst e else String "@" (fst e),
             annotate_spec (snd e))) <$> d)
  | VList l => VList (annotate_spec <$> l)
  | VScalar _ => t
  end.

(** The trees in which prefixing cannot make two keys of one map meet:
    in no map, at any depth, does a key of a list equal ["@"] followed by
    a key of a scalar or of a map. *)
Fixpoint collision_free (t : value) : Prop :=
  match t with
  | VDict d =>
      NoDup (annotated_key <$> d)
      /\ fold_right (fun e rest => collision_free (snd e) /\ rest) True d
  | VList l => fold_right (fun v rest => collision_free v /\ rest) True l
  | VScalar _ => True
  end.

Definition colliding_tree : value :=
  VDict [("@a", VList []); ("a", VScalar (PyInt 1))].

Definition small_tree : value :=
  VDict [("ID", VScalar (PyInt 1));
         ("item", VList [VDict [("name", VScalar (PyStr "sword"))]]);
         ("sub", VDict [("x", VScalar PyNone)])].

Ltac distinct_keys :=
  repeat (apply NoDup_cons_2;
          [ rewrite ?not_elem_of_cons; repeat split;
            solve [ discriminate | apply not_elem_of_nil ] | ]);
  apply NoDup_nil_2.

(** The length of the chain of single-entry maps at the top of a tree. *)
Fixpoint nesting (t : value) : nat :=
  match t with
  | VDict [(_, v)] => S (nesting v)
  | _ => 0
  end.

(** What the specification states of the pass-through handler: the list
    under the root of the output is the input list, element for
    element. *)
Definition wraps_unchanged (limit : nat) (data : hval) (h : heap) : Prop :=
  forall l,
    reify limit h data = Ok (VList l) ->
    fst (handle_skill_xml_info limit data h)
    = Ok (VDict [("root", VDict [("item", VList l)])]).

(** A list of one object [{"ID": 5}]. *)
Definition one_record : heap :=
  [ODict [("ID", HScalar (PyInt 5))]; OList [HRef 0]].

(** The empty list, and the tree [{"root": {"item": []}}] stored beside
    it. *)
Definition empty_normalized : heap :=
  [OList []; ODict [("item", HRef 0)]; ODict [("root", HRef 1)]].

(** The fields of a [dict] whose keys are not in [ks], in order. *)
Definition fields_except (ks : list string) (d : list (string * hval))
  : list (string * hval) :=
  filter (fun e => fst e ∉ ks) d.

(** An object in which at most the entry [__class__] changed. *)
Definition stripped (o o' : obj) : Prop :=
  match o, o' with
  | ODict d, ODict d' =>
      fields_except ["__class__"] d = fields_except ["__class__"] d'
  | OList l, OList l' => l = l'
  | _, _ => False
  end.

(** An object in which at most the entries [item] and [CatID] changed,
    or a list that was at most appended to. *)
Definition grouped (o o' : obj) : Prop :=
  match o, o' with
  | ODict d, ODict d' =>
      fields_except ["item"; "CatID"] d = fields_except ["item"; "CatID"] d'
  | OList l, OList l' => l `prefix_of` l'
  | _, _ => False
  end.

(** Every object of [h] is still there in [h'], changed as [R] allows. *)
Definition heap_rel (R : obj -> obj -> Prop) (h h' : heap) : Prop :=
  forall a o, h !! a = Some o -> exists o', h' !! a = Some o' /\ R o o'.

(** What a handler may do to the objects it is given. *)
Definition allowed_change (key : string) : obj -> obj -> Prop :=
  if String.eqb key "com.robot.core.config.xml.ItemXMLInfo_xmlClass"
  then grouped
  else if String.eqb key "com.robot.core.config.xml.GoldProductXMLInfo_xmlClass"
  then stripped
  else eq.

(** What the specification states of the handlers: no object of the
    input is changed. *)
Definition handler_pure (handler : hval -> M value) : Prop :=
  forall data h, heap_rel eq h (snd (handler data h)).

(** A list of one object [{"__class__": "Gold", "price": 3}]. *)
Definition one_product : heap :=
  [ODict [("__class__", HScalar (PyStr "Gold")); ("price", HScalar (PyInt 3))];
   OList [HRef 0]].

(** [obj.pop("__class__")] on the object at [e], as a change of the
    store. *)
Definition strip_class (h : heap) (e : nat) : heap :=
  match h !! e with
  | Some (ODict d) => <[e := ODict (Dict.remove d "__class__")]> h
  | _ => h
  end.

Definition strip_all (es : list nat) (h : heap) : heap :=
  fold_left strip_class es h.

(** What the specification states of the field-stripping handler: the
    output holds the input elements without their [__class__] entry and
    otherwise as they are. *)
Definition without_class (t : value) : value :=
  match t with
  | VDict d => VDict (Dict.remove d "__class__")
  | _ => t
  end.

Definition strips_only_class (limit : nat) (data : hval) (h : heap) : Prop :=
  forall l,
    reify limit h data = Ok (VList l) ->
    fst (handle_gold_product_xml_info limit data h)
    = Ok (VDict [("root", VDict [("item", VList (without_class <$> l))])]).

(** The three pairs of the grouping example, every pair with a category
    object of its own: [0], [3] and [6] are the categories, [1], [4] and
    [7] the items, [2], [5] and [8] the pairs, [9] the list. *)
Definition category (id : Z) : obj := ODict [("ID", HScalar (PyInt id))].
Definition named (name : string) : obj :=
  ODict [("name", HScalar (PyStr name))].
Definition pair_of (c i : nat) : obj :=
  ODict [("catObj", HRef c); ("itemObj", HRef i)].

Definition three_pairs : heap :=
  [category 1; named "sword"; pair_of 0 1;
   category 1; named "shield"; pair_of 3 4;
   category 2; named "potion"; pair_of 6 7;
   OList [HRef 2; HRef 5; HRef 8]].

(** The same three pairs when the first two share one category object,
    as a decoder that resolves back-references hands them out. *)
Definition three_pairs_shared : heap :=
  [category 1; named "sword"; pair_of 0 1;
   named "shield"; pair_of 0 3;
   category 2; named "potion"; pair_of 5 6;
   OList [HRef 2; HRef 4; HRef 7]].

(** A computation that changes the objects of the store only as [R]
    allows. *)
Definition preserves {A : Type} (R : obj -> obj -> Prop) (m : M A) : Prop :=
  forall h, heap_rel R h (snd (m h)).

(** A tree as the key annotator produces it, bare or under the fixed
    root. *)
Definition annotated (t : value) : Prop :=
  (exists x, t = add_at_prefix_to_keys x) \/
  (exists x, t = VDict [("root", add_at_prefix_to_keys x)]).

(** What the specification states of a decoded segment: the tree handed
    to the writer is an annotated one. *)
Definition writes_annotated (steps limit : nat) (key : string)
    (decoded : hval * heap) : Prop :=
  forall tree, segment_tree steps limit key decoded = Ok tree -> annotated tree.

(** A decoded object [{"a": 1}]. *)
Definition plain_object : hval * heap :=
  (HRef 0, [ODict [("a", HScalar (PyInt 1))]]).

(** An entry the annotator can have written: a prefixed key, or the key
    of a list. *)
Definition attribute_or_list (e : string * value) : Prop :=
  is_list (snd e) = true \/ exists k, fst e = String "@" k.


(** Stand-ins for the collaborators, for the sample runs. *)
Definition corrupt_container : bytes -> result bytes :=
  fun _ => Raise (ExternalError "corrupt container").

Definition stored_inflate : bytes -> result bytes := fun b => Ok b.

Definition one_segment : bytes -> result (list (string * bytes)) :=
  fun b => Ok [("segment", b)].

Definition no_object : bytes -> result (hval * heap) :=
  fun _ => Raise (ExternalError "malformed object stream").

Definition one_record_object : bytes -> result (hval * heap) :=
  fun _ => Ok (HRef 1, one_record).

Definition fixed_markup : value -> result string :=
  fun _ => Ok "<root></root>".

Definition same_name : string -> string := fun key => key.

(** A Flash platform whose container cannot be inflated, and a world in
    which its local version is [1] and the remote version is [2]. *)
Definition broken_flash : Platform :=
  Flash corrupt_container bytes stored_inflate one_segment no_object
    fixed_markup same_name 1 1 "flash".


Definition empty_world : world := World ∅ [] [].

(** ** The grouping handler on decoded pairs *)

(** One element of the input of the grouping handler: the addresses of
    the pair, of its category object and of its item object, and the ID
    the category object holds. *)
Record pair_entry : Type := PairEntry {
  pair_addr : nat;
  cat_addr : nat;
  item_addr : nat;
  cat_id : scalar;
}.

#[global] Instance scalar_eq_dec : EqDecision scalar.
Proof. solve_decision. Defined.

#[global] Instance pair_entry_eq_dec : EqDecision pair_entry.
Proof. solve_decision. Defined.

(** The store holds the pairs [es] as the handler expects them. *)
Definition pairs_in (h : heap) (es : list pair_entry) : Prop :=
  forall e, e ∈ es ->
    (exists d, h !! pair_addr e = Some (ODict d)
               /\ Dict.get d "catObj" = Some (HRef (cat_addr e))
               /\ Dict.get d "itemObj" = Some (HRef (item_addr e)))
    /\ (exists d, h !! cat_addr e = Some (ODict d)
                  /\ Dict.get d "ID" = Some (HScalar (cat_id e)))
    /\ (exists d, h !! item_addr e = Some (ODict d)).

(** Pairs of one category ID hold the same category object. *)
Definition one_object_per_category (es : list pair_entry) : Prop :=
  forall e e', e ∈ es -> e' ∈ es ->
    key_eqb (cat_id e) (cat_id e') = true -> cat_addr e = cat_addr e'.

(** An item object belongs to pairs of one category only. *)
Definition one_category_per_item (es : list pair_entry) : Prop :=
  forall e e', e ∈ es -> e' ∈ es ->
    item_addr e = item_addr e' -> cat_id e = cat_id e'.

(** The pairs whose category is seen for the first time, in order. *)
Definition register_entry (firsts : list pair_entry) (e : pair_entry)
  : list pair_entry :=
  if decide (cat_addr e ∈ cat_addr <$> firsts) then firsts
  else firsts ++ [e].

Definition first_seen (es : list pair_entry) : list pair_entry :=
  foldl register_entry [] es.

(** The entry of [result] for a category. *)
Definition result_entry (f : pair_entry) : scalar * hval :=
  (cat_id f, HRef (cat_addr f)).

(** The objects the handler was given are still there, changed at most
    in [item] and [CatID]; the lists it was given are as they were. *)
Definition dicts_kept (h0 h : heap) : Prop :=
  forall x d0, h0 !! x = Some (ODict d0) ->
    exists d, h !! x = Some (ODict d)
              /\ forall k, k <> "item" -> k <> "CatID" ->
                   Dict.get d k = Dict.get d0 k.

Definition lists_kept (h0 h : heap) : Prop :=
  forall x l, h0 !! x = Some (OList l) -> h !! x = Some (OList l).

(** The [k]-th category seen first holds, under [item], the list at
    [base + k], and that list holds the items of the pairs of that
    category among [done], in order. *)
Definition groups_at (base : nat) (done firsts : list pair_entry)
    (h : heap) : Prop :=
  forall k f, firsts !! k = Some f ->
    (exists d, h !! cat_addr f = Some (ODict d)
               /\ Dict.get d "item" = Some (HRef (base + k)))
    /\ h !! (base + k)
       = Some (OList (HRef <$> (item_addr <$>
                 filter (fun e => cat_addr e = cat_addr f) done))).

(** Every item of [done] carries the ID of its category. *)
Definition items_tagged (done : list pair_entry) (h : heap) : Prop :=
  forall e, e ∈ done ->
    exists d, h !! item_addr e = Some (ODict d)
              /\ Dict.get d "CatID" = Some (HScalar (cat_id e)).

(** The three pairs of the example with a shared category object. *)
Definition shared_entries : list pair_entry :=
  [PairEntry 2 0 1 (PyInt 1); PairEntry 4 0 3 (PyInt 1);
   PairEntry 7 5 6 (PyInt 2)].

(** What holds between two passes of the loop of the grouping handler,
    after the pairs [done]: [firsts] are the pairs that brought a new
    category. *)
Record grouping_inv (h0 : heap) (es done : list pair_entry) (h : heap)
    (firsts : list pair_entry) : Prop := {
  inv_length : length h = length h0 + length firsts;
  inv_firsts_in : forall f, f ∈ firsts -> f ∈ es;
  inv_firsts_cover : forall e, e ∈ done -> cat_addr e ∈ cat_addr <$> firsts;
  inv_firsts_nodup : NoDup (cat_addr <$> firsts);
  inv_dicts : dicts_kept h0 h;
  inv_lists : lists_kept h0 h;
  inv_groups : groups_at (length h0) done firsts h;
  inv_items : items_tagged done h;
}.

(** ** Further statements about the annotator *)

(** A tree that holds, at every depth, only entries the annotator can
    have written. *)
Fixpoint well_annotated (t : value) : Prop :=
  match t with
  | VDict d =>
      fold_right
        (fun e rest => attribute_or_list e /\ well_annotated (snd e) /\ rest)
        True d
  | VList l => fold_right (fun v rest => well_annotated v /\ rest) True l
  | VScalar _ => True
  end.

(** A tree in which every value of every map is a list. *)
Fixpoint attribute_free (t : value) : Prop :=
  match t with
  | VDict d =>
      fold_right
        (fun e rest =>
           is_list (snd e) = true /\ attribute_free (snd e) /\ rest)
        True d
  | VList l => fold_right (fun v rest => attribute_free v /\ rest) True l
  | VScalar _ => True
  end.

(** ** Further statements about the handlers *)

(** The object at [a] holds a reference to the object at [b]. *)
Definition points_to (h : heap) (a b : nat) : Prop :=
  match h !! a with
  | Some (ODict d) => HRef b ∈ (snd <$> d)
  | Some (OList l) => HRef b ∈ l
  | None => False
  end.

(** Every reference held by an object of the store is to an object of
    the store. *)
Definition closed (h : heap) : Prop :=
  forall a b, points_to h a b -> b < length h.

(** A list that holds itself. *)
Definition self_list : heap := [OList [HRef 0]].

(** ** Further statements about the extraction and the update run *)

Section ExtractionStatements.
Variable zlib_decompress : bytes -> result bytes.
Variable AMF3Reader_read_object : bytes -> result (hval * heap).
Variable dict_to_xml : value -> result string.
Variables (steps limit : nat).

(** The bytes [Flash.get_configs] writes for a segment, or the error it
    stops with: lines 165-172 without the record of the calls. *)
Definition segment_bytes (key : string) (value : bytes) : result bytes :=
  if bytes_eqb (take 2 value) zlib_magic then
    inflated ← zlib_decompress value;
    decoded ← AMF3Reader_read_object inflated;
    tree ← segment_tree steps limit key decoded;
    xml ← dict_to_xml tree;
    mret (encode_utf8 xml)
  else Ok value.

End ExtractionStatements.

(** A computation that only adds events that satisfy [P] to the record
    of the calls. *)
Definition appends {A : Type} (P : event -> Prop) (m : IO A) : Prop :=
  forall w, exists evs,
    trace (snd (m w)) = trace w ++ evs /\ Forall P evs.

Definition is_commit (e : event) : Prop :=
  exists name version, e = EvCommit name version.

Definition decoder_call (e : event) : Prop :=
  match e with EvDecompress _ | EvReadObject _ => True | _ => False end.

Definition not_push (e : event) : Prop := e <> EvPush.

Definition no_event (e : event) : Prop := False.

(** A platform whose container is sound but holds no segment, and one
    that never answers. *)
Definition no_segments : bytes -> result (list (string * bytes)) :=
  fun _ => Ok [].

Definition empty_flash : Platform :=
  Flash stored_inflate bytes stored_inflate no_segments no_object
    fixed_markup same_name 1 1 "flash".

Definition silent_platform (dir : string) : Platform :=
  {| work_dir := dir;
     get_remote_version := raise (ExternalError "network");
     get_configs := mret tt |}.

(** ** The downloader *)

(** The two kinds of error [download_data_async] tells apart:
    [httpx.HTTPStatusError], raised by [raise_for_status], and any other
    [httpx.HTTPError]. *)
Definition HTTPStatusError : exn := ExternalError "HTTPStatusError".
Definition HTTPError : exn := ExternalError "HTTPError".

Definition is_status_error (e : exn) : bool :=
  match e with
  | ExternalError tag => String.eqb tag "HTTPStatusError"
  | _ => false
  end.

Definition is_http_error (e : exn) : bool :=
  match e with
  | ExternalError tag => String.eqb tag "HTTPError"
  | _ => false
  end.

Section Downloader.

(** [output_dir / filename] *)
Variable path_div : string -> string -> string.

(** The [while True] loop of lines 196-210 for one task.
    [retries_left] is [max_retries - attempt]: an error other than a
    status error is raised again once [attempt] exceeds [max_retries].
    The pauses between attempts are not recorded. *)
Fixpoint download_attempts (retries_left : nat) (url file_path : string)
  : IO unit :=
  fun w =>
    match httpx_get url w with
    | (Ok content, w1) => write_bytes file_path content w1
    | (Raise e, w1) =>
        if is_status_error e then (Ok tt, w1)
        else if is_http_error e then
          match retries_left with
          | O => (Raise e, w1)
          | S retries_left' =>
              download_attempts retries_left' url file_path w1
          end
        else (Raise e, w1)
    end.

(** [download_data_async], lines 180-212: the tasks are served one
    after the other. *)
Fixpoint download_data_async (tasks : list (string * string))
    (output_dir : string) (max_retries : nat) : IO unit :=
  match tasks with
  | [] => mret tt
  | (url, filename) :: rest =>
      download_attempts max_retries url (path_div output_dir filename) ;;
      download_data_async rest output_dir max_retries
  end.

End Downloader.

(** A world in which the network fails three times and then answers. *)
Definition flaky_world : world :=
  World ∅ [Raise HTTPError; Raise HTTPError; Raise HTTPError;
           Ok [Byte.x31]] [].

(** ** The HTML5 platform *)

Definition HTML5_BASE_URL : string := "https://seerh5.61.com".

(** ['/'.join(parts)] *)
Fixpoint join_slash (parts : list string) : string :=
  match parts with
  | [] => EmptyString
  | [part] => part
  | part :: rest => String.append part (String "/" (join_slash rest))
  end.


Section HTML5.

(** [httpx.URL(text)]: the URL [httpx] makes of a text, which it parses
    and normalises, or the error of a text it does not accept. *)
Variable httpx_URL : string -> result string.

(** [Path(path).with_name(key).relative_to('resource', 'config')] *)
Variable task_filename : string -> string -> result string.

(** [build_tasks], lines 227-243.  A task is the pair of its URL and of
    its file name. *)
Fixpoint build_tasks (tree : value) (path_parts : list string)
  : result (list (string * string)) :=
  match tree with
  | VDict d =>
      (fix items (entries : list (string * value))
         : result (list (string * string)) :=
         match entries with
         | [] => Ok []
         | (key, v) :: rest =>
             match v with
             | VDict _ =>
                 nested ← build_tasks v (path_parts ++ [key]);
                 tasks_local ← items rest;
                 mret (nested ++ tasks_local)
             | VScalar (PyStr s) =>
                 let effective_dirs := tail path_parts in
                 let path := join_slash (effective_dirs ++ [s]) in
                 url ← httpx_URL
                         (String.append HTML5_BASE_URL (String "/" path));
                 filename ← task_filename path key;
                 tasks_local ← items rest;
                 mret ((url, filename) :: tasks_local)
             | _ => items rest
             end
         end) d
  | _ => Raise AttributeError
  end.

(** The entries of a manifest that hold a string, in order: the keys of
    the maps above the entry, its key and its string. *)
Fixpoint string_leaves (tree : value) : list (list string * string * string) :=
  match tree with
  | VDict d =>
      (fix items (entries : list (string * value)) :=
         match entries with
         | [] => []
         | (key, v) :: rest =>
             match v with
             | VDict _ =>
                 ((fun leaf : list string * string * string =>
                     (key :: fst (fst leaf), snd (fst leaf), snd leaf))
                    <$> string_leaves v) ++ items rest
             | VScalar (PyStr s) => ([], key, s) :: items rest
             | _ => items rest
             end
         end) d
  | _ => []
  end.

(** The task of one such entry. *)
Definition task_of_leaf (path_parts : list string)
    (leaf : list string * string * string) : result (string * string) :=
  let path :=
    join_slash (tail (path_parts ++ fst (fst leaf)) ++ [snd leaf]) in
  url ← httpx_URL (String.append HTML5_BASE_URL (String "/" path));
  filename ← task_filename path (snd (fst leaf));
  mret (url, filename).

(** [response.json()], [str(...)], [output_dir / filename], and the URL
    of the manifest, which holds a random number. *)
Variable json_loads : bytes -> result value.
Variable py_str : value -> string.
Variable path_div : string -> string -> string.
Variable HTML5_VERSION_CHECK_URL : string.




End HTML5.

(** A manifest with a file at the top and one in a directory, and a
    stand-in for the file names. *)
Definition small_manifest : value :=
  VDict [("a.json", VScalar (PyStr "a_1.json"));
         ("size", VScalar (PyInt 3));
         ("pet", VDict [("b.json", VScalar (PyStr "b_2.json"))])].

Definition key_as_filename : string -> string -> result string :=
  fun _ key => Ok key.

(** A stand-in for [httpx.URL] on texts it leaves as they are. *)
Definition plain_url : string -> result string := fun text => Ok text.

(** A version of two lines, and a world in which the remote answers it
    twice. *)
Definition two_lines : string :=
  String "1" (String carriage_return (String line_feed "2")).

Definition two_lines_world : world :=
  World ∅ [Ok (encode_utf8 two_lines); Ok (encode_utf8 two_lines)] [].

(** The object at [x] is a [dict] whose [item] entry is [v]. *)
Definition item_field (h : heap) (x : nat) (v : option hval) : Prop :=
  exists d, h !! x = Some (ODict d) /\ Dict.get d "item" = v.

(** A computation that leaves the [item] entry of the object at [x] as
    it is. *)
Definition keeps_field {A : Type} (x : nat) (v : option hval) (m : M A)
  : Prop :=
  forall h, item_field h x v -> item_field (snd (m h)) x v.

(** The pairs of the grouping example, every pair with a category object
    of its own. *)
Definition first_pair : pair_entry := PairEntry 2 0 1 (PyInt 1).
Definition second_pair : pair_entry := PairEntry 5 3 4 (PyInt 1).
Definition third_pair : pair_entry := PairEntry 8 6 7 (PyInt 2).

(** A world in which the Flash platform is out of date and the remote
    version moves on while the configuration is fetched. *)
Definition updating_world : world :=
  World {[ "flash/.version" := encode_utf8 "1" ]}
    [Ok (encode_utf8 "2"); Ok (encode_utf8 "2"); Ok []; Ok (encode_utf8 "3")]
    [].

(** Two segments with one name, and a segment that cannot be inflated
    between two that can be written as they are. *)
Definition twice_named : list (string * bytes) :=
  [("a", [Byte.x01]); ("a", [Byte.x02])].

Definition one_corrupt : list (string * bytes) :=
  [("a", [Byte.x01])] ++ ("b", [Byte.x78; Byte.xda]) :: [("c", [Byte.x03])].










(** * Properties *)
Section DictFacts.
Context {A : Type}.
Implicit Types (d : list (string * A)) (k : string) (v : A).

Lemma dict_set_fresh d k v :
  k ∉ Dict.keys d -> Dict.set d k v = d ++ [(k, v)].
Proof.
  induction d as [|[k' v'] d IH]; simpl; intros Hk; [reflexivity|].
  apply not_elem_of_cons in Hk as [Hne Hk].
  destruct (String.eqb_spec k' k) as [->|_]; [congruence|].
  f_equal. now apply IH.
Qed.

Lemma dict_get_in d k v :
  NoDup (Dict.keys d) -> (k, v) ∈ d -> Dict.get d k = Some v.
Proof.
  induction d as [|[k' v'] d IH]; simpl; intros Hnd Hin.
  - now apply elem_of_nil in Hin.
  - apply NoDup_cons in Hnd as [Hk' Hnd].
    apply elem_of_cons in Hin as [Heq|Hin].
    + inversion Heq; subst. now rewrite String.eqb_refl.
    + destruct (String.eqb_spec k' k) as [->|Hne].
      * exfalso. apply Hk'.
        change k with (fst (k, v)). now apply list_elem_of_fmap_2.
      * now apply IH.
Qed.

Lemma dict_get_not_in d k :
  k ∉ Dict.keys d -> Dict.get d k = None.
Proof.
  induction d as [|[k' v'] d IH]; simpl; intros Hk; [reflexivity|].
  apply not_elem_of_cons in Hk as [Hne Hk].
  destruct (String.eqb_spec k' k) as [->|_]; [congruence|].
  now apply IH.
Qed.

Lemma dict_keys_app d1 d2 :
  Dict.keys (d1 ++ d2) = Dict.keys d1 ++ Dict.keys d2.
Proof. apply fmap_app. Qed.
End DictFacts.

Lemma add_at_prefix_to_keys_dict d :
  add_at_prefix_to_keys (VDict d) = VDict (fold_left annotate_step d []).
Proof.
  simpl. f_equal.
  generalize (@nil (string * value)) as acc.
  induction d as [|[key v] d IH]; intros acc; simpl; [reflexivity|].
  rewrite IH. f_equal.
  unfold annotate_step, annotated_key; simpl.
  destruct v; reflexivity.
Qed.

Lemma annotate_loop_distinct d : forall acc,
  NoDup (Dict.keys acc ++ (annotated_key <$> d)) ->
  fold_left annotate_step d acc = acc ++ (annotated_entry <$> d).
Proof.
  induction d as [|e d IH]; intros acc Hnd; simpl.
  - now rewrite app_nil_r.
  - unfold annotate_step at 2.
    rewrite fmap_cons in Hnd.
    apply NoDup_app in Hnd as (Hacc & Hdisj & Hd).
    apply NoDup_cons in Hd as [He Hd].
    rewrite dict_set_fresh.
    + rewrite IH.
      * now rewrite <- app_assoc.
      * rewrite dict_keys_app. apply NoDup_app. split; [|split].
        -- apply NoDup_app. split; [exact Hacc|]. split.
           ++ intros x Hx Hx'. apply list_elem_of_singleton in Hx'. subst x.
              apply (Hdisj _ Hx). now left.
           ++ apply NoDup_singleton.
        -- intros x Hx Hx'. apply elem_of_app in Hx as [Hx|Hx].
           ++ apply (Hdisj _ Hx). now right.
           ++ apply list_elem_of_singleton in Hx. simpl in Hx. subst x.
              now apply He.
        -- exact Hd.
    + intros Hin. apply (Hdisj _ Hin). now left.
Qed.

Lemma annotate_distinct_keys d :
  NoDup (annotated_key <$> d) ->
  add_at_prefix_to_keys (VDict d) = VDict (annotated_entry <$> d).
Proof.
  intros Hnd. rewrite add_at_prefix_to_keys_dict.
  now rewrite annotate_loop_distinct.
Qed.

Lemma annotated_entries_keys d :
  Dict.keys (annotated_entry <$> d) = annotated_key <$> d.
Proof.
  unfold Dict.keys. rewrite <- list_fmap_compose.
  apply list_fmap_ext. intros _ [k v] _. reflexivity.
Qed.

Lemma annotate_rule_distinct_keys d :
  NoDup (annotated_key <$> d) ->
  annotator_key_rule (VDict d) (add_at_prefix_to_keys (VDict d)).
Proof.
  intros Hnd. unfold annotator_key_rule.
  exists (annotated_entry <$> d).
  split; [now apply annotate_distinct_keys|].
  split; [apply annotated_entries_keys|].
  intros k v Hin.
  assert (Hget : Dict.get (annotated_entry <$> d) (annotated_key (k, v))
                 = Some (add_at_prefix_to_keys v)).
  { apply dict_get_in.
    - now rewrite annotated_entries_keys.
    - apply (list_elem_of_fmap_2 annotated_entry) in Hin. exact Hin. }
  destruct v; exact Hget.
Qed.

(** Induction on trees, with the hypothesis for every element of a list
    and every value of a map. *)
Lemma value_induction (P : value -> Prop) :
  (forall s, P (VScalar s)) ->
  (forall l, Forall P l -> P (VList l)) ->
  (forall d, Forall (fun e => P (snd e)) d -> P (VDict d)) ->
  forall t, P t.
Proof.
  intros Hs Hl Hd.
  fix IH 1. intros [s|l|d].
  - apply Hs.
  - apply Hl. induction l as [|v l IHl]; constructor; [apply IH|exact IHl].
  - apply Hd. induction d as [|[k v] d IHd]; constructor;
      [apply IH|exact IHd].
Qed.

Lemma collision_free_elements l :
  fold_right (fun v rest => collision_free v /\ rest) True l ->
  Forall collision_free l.
Proof. induction l; simpl; intros H; constructor; tauto. Qed.

Lemma collision_free_values (d : list (string * value)) :
  fold_right (fun e rest => collision_free (snd e) /\ rest) True d ->
  Forall (fun e => collision_free (snd e)) d.
Proof. induction d; simpl; intros H; constructor; tauto. Qed.

Lemma add_at_prefix_to_keys_refines (t : value) :
  collision_free t -> add_at_prefix_to_keys t = annotate_spec t.
Proof.
  induction t as [s|l IH|d IH] using value_induction; intros Hfree.
  - reflexivity.
  - simpl. f_equal. apply collision_free_elements in Hfree.
    induction IH as [|v l Hv _ IHl]; [reflexivity|].
    apply Forall_cons in Hfree as [Hfv Hfl].
    rewrite !fmap_cons. f_equal; [now apply Hv|now apply IHl].
  - destruct Hfree as [Hnd Hvalues].
    rewrite annotate_distinct_keys by exact Hnd.
    simpl. f_equal. apply collision_free_values in Hvalues.
    clear Hnd. induction IH as [|[k v] d Hv _ IHd]; [reflexivity|].
    apply Forall_cons in Hvalues as [Hfv Hfd].
    rewrite !fmap_cons. f_equal; [|now apply IHd].
    unfold annotated_entry, annotated_key. simpl. f_equal. now apply Hv.
Qed.

(** C1 (as amended): one application of [add_at_prefix_to_keys] to a
    tree in which no map has a key of a list equal to ["@"] followed by
    one of its other keys follows the key rule.  It returns the tree the
    specification describes: at every depth a key of a list stays bare
    and the elements of the list are annotated, any other key gets
    exactly one leading ["@"] and its value is annotated, the entries
    keep their order, and a value that is neither a map nor a list is
    returned as it is. *)
Theorem add_at_prefix_to_keys_key_rule (data : value) :
  collision_free data ->
  add_at_prefix_to_keys data = annotate_spec data
  /\ annotator_key_rule data (add_at_prefix_to_keys data).
Proof.
  intros Hfree. split; [now apply add_at_prefix_to_keys_refines|].
  destruct data as [s|l|d]; try reflexivity.
  apply annotate_rule_distinct_keys. exact (proj1 Hfree).
Qed.

Example annotate_colliding :
  add_at_prefix_to_keys colliding_tree = VDict [("@a", VScalar (PyInt 1))].
Proof. reflexivity. Qed.

(** C1 as the specification states it fails on a map that has both a
    key ["@a"] of a list and a key ["a"] of a scalar: the second
    assignment overwrites the first, and the list is gone. *)
Lemma add_at_prefix_to_keys_key_rule_counterexample :
  add_at_prefix_to_keys colliding_tree <> annotate_spec colliding_tree
  /\ ~ annotator_key_rule colliding_tree
        (add_at_prefix_to_keys colliding_tree).
Proof.
  rewrite annotate_colliding. split; [discriminate|].
  unfold colliding_tree, annotator_key_rule.
  intros (d' & Hd' & Hkeys & _).
  inversion Hd'; subst d'. discriminate Hkeys.
Qed.

Lemma add_at_prefix_to_keys_key_rule_witness :
  collision_free small_tree
  /\ add_at_prefix_to_keys small_tree = annotate_spec small_tree
  /\ annotator_key_rule small_tree (add_at_prefix_to_keys small_tree).
Proof.
  assert (H : collision_free small_tree).
  { simpl. repeat split; distinct_keys. }
  split; [exact H|].
  exact (add_at_prefix_to_keys_key_rule small_tree H).
Defined.

Example annotate_small :
  add_at_prefix_to_keys small_tree
  = VDict [("@ID", VScalar (PyInt 1));
           ("item", VList [VDict [("@name", VScalar (PyStr "sword"))]]);
           ("@sub", VDict [("@x", VScalar PyNone)])].
Proof. reflexivity. Qed.

(** ** The pass-through handler *)

Lemma handle_skill_xml_info_eq limit data h :
  handle_skill_xml_info limit data h
  = (match reify limit h data with
     | Ok item =>
         Ok (VDict [("root", add_at_prefix_to_keys (VDict [("item", item)]))])
     | Raise e => Raise e
     end, h).
Proof.
  unfold handle_skill_xml_info, read_tree, mbind, SE_bind, mret, SE_ret.
  destruct (reify limit h data); reflexivity.
Qed.

Lemma annotate_item_entry (item : value) :
  add_at_prefix_to_keys (VDict [("item", item)])
  = VDict [(if is_list item then "item" else "@item",
            add_at_prefix_to_keys item)].
Proof. destruct item; reflexivity. Qed.

(** C3 (as amended): the pass-through handler changes nothing in the
    store, and for an input list it returns [{"root": {"item": L}}] where
    [L] holds, in order, the image of each input element under the key
    annotator. *)
Theorem handle_skill_xml_info_wraps_annotated
    (limit : nat) (data : hval) (h : heap) (l : list value) :
  reify limit h data = Ok (VList l) ->
  handle_skill_xml_info limit data h
  = (Ok (VDict [("root",
                 VDict [("item", VList (add_at_prefix_to_keys <$> l))])]),
     h).
Proof.
  intros Hl. rewrite handle_skill_xml_info_eq, Hl. reflexivity.
Qed.

Lemma handle_skill_xml_info_wraps_annotated_witness :
  reify 2 one_record (HRef 1) = Ok (VList [VDict [("ID", VScalar (PyInt 5))]]) /\
  handle_skill_xml_info 2 (HRef 1) one_record
  = (Ok (VDict [("root",
                 VDict [("item",
                         VList [VDict [("@ID", VScalar (PyInt 5))]])])]),
     one_record).
Proof.
  split; [reflexivity|].
  exact (handle_skill_xml_info_wraps_annotated 2 (HRef 1) one_record
           [VDict [("ID", VScalar (PyInt 5))]] eq_refl).
Defined.

(** C3 as the specification states it fails on a list that holds a map:
    the key ["ID"] of the element comes out as ["@ID"]. *)
Lemma handle_skill_xml_info_counterexample :
  ~ wraps_unchanged 2 (HRef 1) one_record.
Proof.
  intros H. specialize (H _ eq_refl). discriminate H.
Qed.

Lemma nesting_annotate (n : nat) : forall t,
  n <= nesting t -> n <= nesting (add_at_prefix_to_keys t).
Proof.
  induction n as [|n IH]; intros t Hn; [lia|].
  destruct t as [s|l|[|[k v] [|e d]]]; simpl in Hn; try lia.
  rewrite add_at_prefix_to_keys_dict. simpl.
  unfold annotate_step. simpl.
  apply le_n_S, IH. lia.
Qed.

(** C4 (as amended): a second application of the pass-through handler is
    never the identity.  Applied to a tree [t] the handler has already
    returned, however [t] is stored, it changes nothing in the store and
    returns [{"root": {"@item": t'}}] where [t'] is the image of [t]
    under the key annotator, and this tree differs from [t]. *)
Theorem handle_skill_xml_info_twice
    (limit limit' : nat) (data stored : hval) (h h1 h' : heap) (t : value) :
  handle_skill_xml_info limit data h = (Ok t, h1) ->
  reify limit' h' stored = Ok t ->
  handle_skill_xml_info limit' stored h'
  = (Ok (VDict [("root", VDict [("@item", add_at_prefix_to_keys t)])]), h')
  /\ VDict [("root", VDict [("@item", add_at_prefix_to_keys t)])] <> t.
Proof.
  intros Hfirst Hstored. split.
  - rewrite handle_skill_xml_info_eq in Hfirst.
    destruct (reify limit h data) as [item|e]; [|discriminate].
    inversion Hfirst; subst t h1; clear Hfirst.
    rewrite handle_skill_xml_info_eq, Hstored. reflexivity.
  - intros Heq.
    pose proof (nesting_annotate (nesting t) t (le_n _)) as Hle.
    apply (f_equal nesting) in Heq. simpl in Heq. lia.
Qed.

Lemma handle_skill_xml_info_twice_witness :
  handle_skill_xml_info 1 (HRef 0) empty_normalized
  = (Ok (VDict [("root", VDict [("item", VList [])])]), empty_normalized) /\
  reify 3 empty_normalized (HRef 2)
  = Ok (VDict [("root", VDict [("item", VList [])])]) /\
  handle_skill_xml_info 3 (HRef 2) empty_normalized
  = (Ok (VDict [("root",
                 VDict [("@item",
                         VDict [("@root", VDict [("item", VList [])])])])]),
     empty_normalized) /\
  VDict [("root",
          VDict [("@item", VDict [("@root", VDict [("item", VList [])])])])]
  <> VDict [("root", VDict [("item", VList [])])].
Proof.
  split; [reflexivity|]. split; [reflexivity|].
  exact (handle_skill_xml_info_twice 1 3 (HRef 0) (HRef 2)
           empty_normalized empty_normalized empty_normalized
           _ eq_refl eq_refl).
Defined.

(** C4 as the specification states it fails already on the empty list:
    the handler applied to [{"root": {"item": []}}] returns a tree two
    levels deeper. *)
Lemma handle_skill_xml_info_twice_counterexample :
  reify 3 empty_normalized (HRef 2)
  = fst (handle_skill_xml_info 1 (HRef 0) empty_normalized) /\
  fst (handle_skill_xml_info 3 (HRef 2) empty_normalized)
  <> fst (handle_skill_xml_info 1 (HRef 0) empty_normalized).
Proof.
  split; [reflexivity|]. intros H. discriminate H.
Qed.

(** ** The handlers and the store *)

Section HeapRel.
Context (R : obj -> obj -> Prop) `{!Reflexive R} `{!Transitive R}.

Lemma heap_rel_refl h : heap_rel R h h.
Proof. intros a o Ho. exists o. split; [exact Ho|reflexivity]. Qed.

Lemma heap_rel_trans h1 h2 h3 :
  heap_rel R h1 h2 -> heap_rel R h2 h3 -> heap_rel R h1 h3.
Proof.
  intros H12 H23 a o Ho.
  destruct (H12 a o Ho) as (o2 & Ho2 & Ho12).
  destruct (H23 a o2 Ho2) as (o3 & Ho3 & Ho23).
  exists o3. split; [exact Ho3|]. now transitivity o2.
Qed.

Lemma heap_rel_insert (h : heap) a o o' :
  h !! a = Some o -> R o o' -> heap_rel R h (<[a := o']> h).
Proof.
  intros Ha HR b ob Hb.
  destruct (decide (a = b)) as [->|Hne].
  - exists o'. split.
    + apply list_lookup_insert_eq. now apply lookup_lt_Some in Hb.
    + rewrite Ha in Hb. inversion Hb; subst. exact HR.
  - exists ob. split; [|reflexivity].
    now rewrite list_lookup_insert_ne.
Qed.

Lemma heap_rel_alloc (h : heap) o : heap_rel R h (h ++ [o]).
Proof.
  intros a oa Ha. exists oa. split; [|reflexivity].
  now apply lookup_app_l_Some.
Qed.

Lemma preserves_ret {A} (x : A) : preserves R (mret x).
Proof. intros h. apply heap_rel_refl. Qed.

Lemma preserves_raise {A} e : preserves R (@raise heap A e).
Proof. intros h. apply heap_rel_refl. Qed.

Lemma preserves_bind {A B} (m : M A) (f : A -> M B) :
  preserves R m -> (forall x, preserves R (f x)) -> preserves R (m ≫= f).
Proof.
  intros Hm Hf h. unfold mbind, SE_bind.
  specialize (Hm h). destruct (m h) as [[x|e] h1]; simpl in *.
  - eapply heap_rel_trans; [exact Hm|apply Hf].
  - exact Hm.
Qed.

Lemma preserves_subscript o k : preserves R (subscript o k).
Proof.
  intros h. unfold subscript.
  destruct o as [s|a]; [apply heap_rel_refl|].
  destruct (h !! a) as [[d|l]|]; try apply heap_rel_refl.
  destruct (Dict.get d k); apply heap_rel_refl.
Qed.

Lemma preserves_hash_key v : preserves R (hash_key v).
Proof. destruct v; intros h; apply heap_rel_refl. Qed.

Lemma preserves_new_list : preserves R new_list.
Proof. intros h. apply heap_rel_alloc. Qed.

Lemma preserves_iter_next data i : preserves R (iter_next data i).
Proof.
  intros h. unfold iter_next.
  destruct data as [[| | |s]|a]; try apply heap_rel_refl.
  destruct (h !! a) as [[d|l]|]; apply heap_rel_refl.
Qed.

Lemma preserves_elements data : preserves R (elements data).
Proof.
  intros h. unfold elements.
  destruct data as [[| | |s]|a]; try apply heap_rel_refl.
  destruct (h !! a) as [[d|l]|]; apply heap_rel_refl.
Qed.

Lemma preserves_read_trees limit vs : preserves R (read_trees limit vs).
Proof. intros h. apply heap_rel_refl. Qed.

Lemma preserves_setitem o k v :
  (forall d, R (ODict d) (ODict (Dict.set d k v))) ->
  preserves R (setitem o k v).
Proof.
  intros HR h. unfold setitem.
  destruct o as [s|a]; [apply heap_rel_refl|].
  destruct (h !! a) as [[d|l]|] eqn:Ha; try apply heap_rel_refl.
  simpl. eapply heap_rel_insert; [exact Ha|apply HR].
Qed.

Lemma preserves_append o v :
  (forall l, R (OList l) (OList (l ++ [v]))) ->
  preserves R (append o v).
Proof.
  intros HR h. unfold append.
  destruct o as [s|a]; [apply heap_rel_refl|].
  destruct (h !! a) as [[d|l]|] eqn:Ha; try apply heap_rel_refl.
  simpl. eapply heap_rel_insert; [exact Ha|apply HR].
Qed.

Lemma preserves_pop o k :
  (forall d, R (ODict d) (ODict (Dict.remove d k))) ->
  preserves R (pop o k).
Proof.
  intros HR h. unfold pop.
  destruct o as [s|a]; [apply heap_rel_refl|].
  destruct (h !! a) as [[d|l]|] eqn:Ha; try apply heap_rel_refl.
  destruct (Dict.get d k); [|apply heap_rel_refl].
  simpl. eapply heap_rel_insert; [exact Ha|apply HR].
Qed.

Lemma preserves_for_each {A B} (f : A -> M B) l :
  (forall x, preserves R (f x)) -> preserves R (for_each f l).
Proof.
  intros Hf. induction l as [|x l IH]; simpl.
  - apply preserves_ret.
  - apply preserves_bind; [apply Hf|]. intros y.
    apply preserves_bind; [exact IH|]. intros ys. apply preserves_ret.
Qed.

End HeapRel.

Lemma fields_except_set ks d k v :
  k ∈ ks -> fields_except ks (Dict.set d k v) = fields_except ks d.
Proof.
  intros Hk. unfold fields_except.
  induction d as [|[k' v'] d IH]; simpl.
  - rewrite filter_cons_False; [reflexivity|]. simpl. tauto.
  - destruct (String.eqb_spec k' k) as [->|Hne].
    + rewrite !filter_cons_False; simpl; tauto.
    + rewrite !filter_cons. simpl. now rewrite IH.
Qed.

Lemma fields_except_remove ks d k :
  k ∈ ks -> fields_except ks (Dict.remove d k) = fields_except ks d.
Proof.
  intros Hk. unfold fields_except.
  induction d as [|[k' v'] d IH]; simpl; [reflexivity|].
  destruct (String.eqb_spec k' k) as [->|Hne].
  - rewrite filter_cons_False; simpl; tauto.
  - rewrite !filter_cons. simpl. now rewrite IH.
Qed.

#[local] Instance stripped_refl : Reflexive stripped.
Proof. intros [d|l]; reflexivity. Qed.

#[local] Instance stripped_trans : Transitive stripped.
Proof.
  intros [d1|l1] [d2|l2] [d3|l3]; simpl; try tauto; congruence.
Qed.

#[local] Instance grouped_refl : Reflexive grouped.
Proof. intros [d|l]; simpl; reflexivity. Qed.

#[local] Instance grouped_trans : Transitive grouped.
Proof.
  intros [d1|l1] [d2|l2] [d3|l3]; simpl; try tauto; try congruence.
  intros H12 H23. now transitivity l2.
Qed.

Lemma item_body_grouped obj result : preserves grouped (item_body obj result).
Proof.
  unfold item_body.
  apply preserves_bind; [apply _|apply preserves_subscript; apply _|].
  intros cat_obj.
  apply preserves_bind; [apply _|apply preserves_subscript; apply _|].
  intros cat_id.
  apply preserves_bind; [apply _|apply preserves_hash_key; apply _|].
  intros key.
  apply preserves_bind; [apply _| |].
  { destruct (contains result key); [apply preserves_ret; apply _|].
    apply preserves_bind; [apply _|apply preserves_new_list; apply _|].
    intros empty.
    apply preserves_bind; [apply _| |intros; apply preserves_ret; apply _].
    apply preserves_setitem; [apply _|].
    intros d. simpl. symmetry. apply fields_except_set. set_solver. }
  intros result'.
  apply preserves_bind; [apply _|apply preserves_subscript; apply _|].
  intros item.
  apply preserves_bind; [apply _| |].
  { apply preserves_setitem; [apply _|].
    intros d. simpl. symmetry. apply fields_except_set. set_solver. }
  intros _.
  apply preserves_bind; [apply _|apply preserves_subscript; apply _|].
  intros items.
  apply preserves_bind; [apply _| |intros; apply preserves_ret; apply _].
  apply preserves_append; [apply _|].
  intros l. simpl. now apply prefix_app_r.
Qed.

Lemma item_loop_grouped steps : forall data i result,
  preserves grouped (item_loop steps data i result).
Proof.
  induction steps as [|steps IH]; intros data i result; simpl.
  - apply preserves_raise. apply _.
  - apply preserves_bind; [apply _|apply preserves_iter_next; apply _|].
    intros [obj|]; [|apply preserves_ret; apply _].
    apply preserves_bind; [apply _|apply item_body_grouped|].
    intros result'. apply IH.
Qed.

Lemma handle_item_xml_info_grouped steps limit data :
  preserves grouped (handle_item_xml_info steps limit data).
Proof.
  unfold handle_item_xml_info.
  apply preserves_bind; [apply _|apply item_loop_grouped|].
  intros result.
  apply preserves_bind; [apply _|apply preserves_read_trees; apply _|].
  intros values. apply preserves_ret. apply _.
Qed.

Lemma handle_gold_product_xml_info_stripped limit data :
  preserves stripped (handle_gold_product_xml_info limit data).
Proof.
  unfold handle_gold_product_xml_info.
  apply preserves_bind; [apply _|apply preserves_elements; apply _|].
  intros objs.
  apply preserves_bind; [apply _| |].
  { apply preserves_for_each; [apply _|apply _|].
    intros obj. unfold _delete_class.
    apply preserves_bind; [apply _| |intros; apply preserves_ret; apply _].
    apply preserves_pop; [apply _|].
    intros d. simpl. symmetry. apply fields_except_remove. set_solver. }
  intros stripped_objs.
  apply preserves_bind; [apply _|apply preserves_read_trees; apply _|].
  intros values. apply preserves_ret. apply _.
Qed.

Lemma handle_skill_xml_info_store limit data h :
  snd (handle_skill_xml_info limit data h) = h.
Proof. now rewrite handle_skill_xml_info_eq. Qed.

(** C5 (as amended): the handlers are not all without effect on their
    input.  Each registered handler changes the objects it is given at
    most as follows, whatever its argument and whether it returns or
    raises: the pass-through handler changes nothing; the field-stripping
    handler changes nothing but the [__class__] entry of a [dict]; the
    grouping handler changes nothing but the [item] and [CatID] entries
    of a [dict] and appends to lists. *)
Theorem handlers_effects (steps limit : nat) (key : string)
    (handler : hval -> M value) (data : hval) (h : heap) :
  AMF3_DATA_HANDLERS steps limit key = Some handler ->
  heap_rel (allowed_change key) h (snd (handler data h)).
Proof.
  unfold AMF3_DATA_HANDLERS, allowed_change.
  destruct (String.eqb key _).
  { intros [= <-]. apply handle_item_xml_info_grouped. }
  destruct (String.eqb key _).
  { intros [= <-]. apply handle_gold_product_xml_info_stripped. }
  destruct (String.eqb key _); [|discriminate].
  intros [= <-]. rewrite handle_skill_xml_info_store.
  apply heap_rel_refl. apply _.
Qed.

Lemma handlers_effects_witness :
  AMF3_DATA_HANDLERS 2 2 "com.robot.core.config.xml.GoldProductXMLInfo_xmlClass"
  = Some (handle_gold_product_xml_info 2) /\
  heap_rel stripped one_product
    (snd (handle_gold_product_xml_info 2 (HRef 1) one_product)).
Proof.
  split; [reflexivity|].
  exact (handlers_effects 2 2
           "com.robot.core.config.xml.GoldProductXMLInfo_xmlClass"
           (handle_gold_product_xml_info 2) (HRef 1) one_product eq_refl).
Defined.

Example handle_gold_product_one_product :
  handle_gold_product_xml_info 2 (HRef 1) one_product
  = (Ok (VDict [("root",
                 VDict [("item",
                         VList [VDict [("@price", VScalar (PyInt 3))]])])]),
     [ODict [("price", HScalar (PyInt 3))]; OList [HRef 0]]).
Proof. reflexivity. Qed.

(** C5 as the specification states it fails for the field-stripping
    handler: after the call the input object has lost its [__class__]
    entry. *)
Lemma handlers_pure_counterexample :
  ~ (forall key handler,
       AMF3_DATA_HANDLERS 2 2 key = Some handler -> handler_pure handler).
Proof.
  intros H.
  specialize (H "com.robot.core.config.xml.GoldProductXMLInfo_xmlClass"
                (handle_gold_product_xml_info 2) eq_refl
                (HRef 1) one_product 0 _ eq_refl).
  destruct H as (o' & Ho' & Heq).
  rewrite handle_gold_product_one_product in Ho'. simpl in Ho'.
  subst o'. discriminate Ho'.
Qed.

(** ** The field-stripping handler *)

Lemma strip_class_other (h : heap) e b :
  e <> b -> strip_class h e !! b = h !! b.
Proof.
  intros Hne. unfold strip_class.
  destruct (h !! e) as [[d|l]|]; try reflexivity.
  now apply list_lookup_insert_ne.
Qed.

Lemma strip_all_other es : forall (h : heap) b,
  b ∉ es -> strip_all es h !! b = h !! b.
Proof.
  induction es as [|e es IH]; intros h b Hb; simpl; [reflexivity|].
  apply not_elem_of_cons in Hb as [Hne Hb].
  rewrite IH by exact Hb. apply strip_class_other. congruence.
Qed.

Lemma strip_all_element es : forall (h : heap) e d,
  NoDup es -> e ∈ es -> h !! e = Some (ODict d) ->
  strip_all es h !! e = Some (ODict (Dict.remove d "__class__")).
Proof.
  induction es as [|e' es IH]; intros h e d Hnd Hin He; simpl.
  - now apply elem_of_nil in Hin.
  - apply NoDup_cons in Hnd as [Hnotin Hnd].
    apply elem_of_cons in Hin as [->|Hin].
    + rewrite strip_all_other by exact Hnotin.
      unfold strip_class. rewrite He.
      apply list_lookup_insert_eq. now apply lookup_lt_Some in He.
    + apply IH; [exact Hnd|exact Hin|].
      rewrite strip_class_other; [exact He|].
      intros ->. contradiction.
Qed.

Lemma dict_get_is_some {A} (d : list (string * A)) k :
  k ∈ Dict.keys d -> is_Some (Dict.get d k).
Proof.
  induction d as [|[k' v'] d IH]; simpl; intros Hk.
  - now apply elem_of_nil in Hk.
  - destruct (String.eqb_spec k' k) as [->|Hne]; [eauto|].
    apply IH. apply elem_of_cons in Hk as [Heq|Hk]; [congruence|exact Hk].
Qed.

Lemma delete_class_element (h : heap) e d :
  h !! e = Some (ODict d) -> "__class__" ∈ Dict.keys d ->
  _delete_class (HRef e) h = (Ok (HRef e), strip_class h e).
Proof.
  intros He Hk. unfold _delete_class, pop, strip_class, mbind, SE_bind.
  rewrite He. destruct (dict_get_is_some d _ Hk) as [v ->]. reflexivity.
Qed.

Lemma delete_class_all es : forall (h : heap),
  NoDup es ->
  (forall e, e ∈ es ->
     exists d, h !! e = Some (ODict d) /\ "__class__" ∈ Dict.keys d) ->
  for_each _delete_class (HRef <$> es) h = (Ok (HRef <$> es), strip_all es h).
Proof.
  induction es as [|e es IH]; intros h Hnd Hes; simpl; [reflexivity|].
  apply NoDup_cons in Hnd as [Hnotin Hnd].
  destruct (Hes e) as (d & He & Hk); [now left|].
  unfold mbind at 1, SE_bind at 1.
  rewrite (delete_class_element h e d He Hk).
  unfold mbind, SE_bind.
  rewrite IH; [reflexivity|exact Hnd|].
  intros e' He'. destruct (Hes e') as (d' & Hd' & Hk'); [now right|].
  exists d'. split; [|exact Hk'].
  rewrite strip_class_other; [exact Hd'|].
  intros ->. contradiction.
Qed.

(** C9 (as amended): for a list of pairwise distinct objects that each
    hold the key [__class__], the field-stripping handler removes that
    entry from every element in the store and changes no other entry and
    no other object; it returns [{"root": {"item": L}}] where [L] holds,
    in order, the image under the key annotator of each element as it
    then is: the remaining fields keep their order and their keys are
    prefixed. *)
Theorem handle_gold_product_xml_info_strips
    (limit a : nat) (es : list nat) (h : heap) (ts : list value) :
  h !! a = Some (OList (HRef <$> es)) ->
  NoDup es ->
  (forall e, e ∈ es ->
     exists d, h !! e = Some (ODict d) /\ "__class__" ∈ Dict.keys d) ->
  mapM_result (reify limit (strip_all es h)) (HRef <$> es) = Ok ts ->
  handle_gold_product_xml_info limit (HRef a) h
  = (Ok (VDict [("root",
                 VDict [("item", VList (add_at_prefix_to_keys <$> ts))])]),
     strip_all es h)
  /\ (forall e d, e ∈ es -> h !! e = Some (ODict d) ->
        strip_all es h !! e = Some (ODict (Dict.remove d "__class__")))
  /\ (forall b, b ∉ es -> strip_all es h !! b = h !! b).
Proof.
  intros Ha Hnd Hes Hts. split; [|split].
  - unfold handle_gold_product_xml_info.
    unfold mbind at 1, SE_bind at 1. unfold elements. rewrite Ha.
    unfold mbind at 1, SE_bind at 1.
    rewrite (delete_class_all es h Hnd Hes).
    unfold mbind, SE_bind, read_trees. rewrite Hts. reflexivity.
  - intros e d He Hd. now apply strip_all_element.
  - intros b Hb. now apply strip_all_other.
Qed.

Lemma handle_gold_product_xml_info_strips_witness :
  one_product !! 1 = Some (OList (HRef <$> [0]))
  /\ NoDup [0]
  /\ (forall e, e ∈ [0] ->
       exists d, one_product !! e = Some (ODict d)
                 /\ "__class__" ∈ Dict.keys d)
  /\ handle_gold_product_xml_info 2 (HRef 1) one_product
     = (Ok (VDict [("root",
                    VDict [("item",
                            VList [VDict [("@price", VScalar (PyInt 3))]])])]),
        [ODict [("price", HScalar (PyInt 3))]; OList [HRef 0]]).
Proof.
  assert (Hnd : NoDup [0]) by (apply NoDup_singleton).
  assert (Hes : forall e, e ∈ [0] ->
            exists d, one_product !! e = Some (ODict d)
                      /\ "__class__" ∈ Dict.keys d).
  { intros e He. apply list_elem_of_singleton in He. subst e.
    eexists. split; [reflexivity|]. simpl. now left. }
  split; [reflexivity|]. split; [exact Hnd|]. split; [exact Hes|].
  exact (proj1 (handle_gold_product_xml_info_strips 2 1 [0] one_product
                  [VDict [("price", VScalar (PyInt 3))]]
                  eq_refl Hnd Hes eq_refl)).
Defined.

(** C9 as the specification states it fails on a list of one object
    with a field besides [__class__]: the field [price] comes out as
    [@price]. *)
Lemma handle_gold_product_xml_info_counterexample :
  ~ strips_only_class 2 (HRef 1) one_product.
Proof.
  intros H. specialize (H _ eq_refl).
  rewrite handle_gold_product_one_product in H. discriminate H.
Qed.

(** ** The grouping handler *)

(** C2 (the code departs from it): on the three pairs of the grouping
    example, each with a category object of its own, the handler does not
    return two groups: the second pair has the category ID of the first,
    so its category object is not given an [item] list, and appending to
    that list raises [KeyError]. *)
Theorem handle_item_xml_info_three_pairs (n limit : nat) :
  fst (handle_item_xml_info (S (S n)) limit (HRef 9) three_pairs)
  = Raise (KeyError "item").
Proof. reflexivity. Qed.

(** With one category object shared by the first two pairs the handler
    returns the two groups of the example. *)
Example handle_item_xml_info_three_pairs_shared :
  fst (handle_item_xml_info 4 3 (HRef 8) three_pairs_shared)
  = Ok (VDict [("root", VDict [("items", VList [
      VDict [("@ID", VScalar (PyInt 1));
             ("item", VList [
                VDict [("@name", VScalar (PyStr "sword"));
                       ("@CatID", VScalar (PyInt 1))];
                VDict [("@name", VScalar (PyStr "shield"));
                       ("@CatID", VScalar (PyInt 1))]])];
      VDict [("@ID", VScalar (PyInt 2));
             ("item", VList [
                VDict [("@name", VScalar (PyStr "potion"));
                       ("@CatID", VScalar (PyInt 2))]])]])])]).
Proof. reflexivity. Qed.

(** ** The trees handed to the writer *)

Lemma is_list_annotate v : is_list (add_at_prefix_to_keys v) = is_list v.
Proof. destruct v; reflexivity. Qed.

Lemma dict_set_forall {A} (P : string * A -> Prop) d k v :
  (forall k', P (k', v)) -> Forall P d -> Forall P (Dict.set d k v).
Proof.
  intros Hv. induction 1 as [|[k' v'] d Hx Hd IH]; simpl.
  - repeat constructor. apply Hv.
  - destruct (String.eqb k' k); constructor; auto.
Qed.

Lemma annotate_loop_entries d : forall acc,
  Forall attribute_or_list acc ->
  Forall attribute_or_list (fold_left annotate_step d acc).
Proof.
  induction d as [|[k v] d IH]; intros acc Hacc; simpl; [exact Hacc|].
  apply IH. unfold annotate_step, annotated_key. simpl.
  destruct (is_list v) eqn:Hv.
  - apply dict_set_forall; [|exact Hacc].
    intros k'. left. simpl. now rewrite is_list_annotate.
  - apply Forall_forall. intros e He.
    revert He. generalize (add_at_prefix_to_keys v) as t.
    induction Hacc as [|[k0 v0] acc H0 Hacc IHacc]; simpl; intros t He.
    + apply list_elem_of_singleton in He. subst e. right. now exists k.
    + destruct (String.eqb_spec k0 (String "@" k)) as [Heq|Hne].
      * apply elem_of_cons in He as [->|He].
        -- right. now exists k.
        -- eapply Forall_forall in Hacc; eauto.
      * apply elem_of_cons in He as [->|He]; [exact H0|].
        now apply (IHacc t).
Qed.

Lemma annotated_entries x d :
  add_at_prefix_to_keys x = VDict d -> Forall attribute_or_list d.
Proof.
  destruct x as [s|l|d0]; try discriminate.
  rewrite add_at_prefix_to_keys_dict. intros [= <-].
  apply annotate_loop_entries. constructor.
Qed.

Lemma handle_item_xml_info_root steps limit data h t h' :
  handle_item_xml_info steps limit data h = (Ok t, h') ->
  exists x, t = VDict [("root", add_at_prefix_to_keys x)].
Proof.
  unfold handle_item_xml_info, mbind, SE_bind, read_trees.
  destruct (item_loop steps data 0 [] h) as [[r|e] h1]; [|discriminate].
  destruct (mapM_result _ _) as [vs|e]; [|discriminate].
  intros Ht. exists (VDict [("items", VList vs)]).
  now inversion Ht.
Qed.

Lemma handle_gold_product_xml_info_root limit data h t h' :
  handle_gold_product_xml_info limit data h = (Ok t, h') ->
  exists x, t = VDict [("root", add_at_prefix_to_keys x)].
Proof.
  unfold handle_gold_product_xml_info, mbind, SE_bind, read_trees.
  destruct (elements data h) as [[objs|e] h1]; [|discriminate].
  destruct (for_each _delete_class objs h1) as [[st|e] h2]; [|discriminate].
  destruct (mapM_result _ _) as [vs|e]; [|discriminate].
  intros Ht. exists (VDict [("item", VList vs)]).
  now inversion Ht.
Qed.

Lemma handle_skill_xml_info_root limit data h t h' :
  handle_skill_xml_info limit data h = (Ok t, h') ->
  exists x, t = VDict [("root", add_at_prefix_to_keys x)].
Proof.
  rewrite handle_skill_xml_info_eq.
  destruct (reify limit h data) as [item|e]; [|discriminate].
  intros Ht. exists (VDict [("item", item)]).
  now inversion Ht.
Qed.

Lemma registered_handler_root steps limit key handler data h t :
  AMF3_DATA_HANDLERS steps limit key = Some handler ->
  fst (handler data h) = Ok t ->
  exists x, t = VDict [("root", add_at_prefix_to_keys x)].
Proof.
  unfold AMF3_DATA_HANDLERS.
  destruct (String.eqb key _).
  { intros [= <-] Ht. destruct (handle_item_xml_info _ _ _ _) eqn:E.
    simpl in Ht; subst. eapply handle_item_xml_info_root; eauto. }
  destruct (String.eqb key _).
  { intros [= <-] Ht. destruct (handle_gold_product_xml_info _ _ _) eqn:E.
    simpl in Ht; subst. eapply handle_gold_product_xml_info_root; eauto. }
  destruct (String.eqb key _); [|discriminate].
  intros [= <-] Ht. destruct (handle_skill_xml_info _ _ _) eqn:E.
  simpl in Ht; subst. eapply handle_skill_xml_info_root; eauto.
Qed.

(** C7 as the specification states it fails for a decoded segment whose
    name has no handler: the decoded tree [{"a": 1}] goes to the writer
    as it is, and its key ["a"] of a scalar is not one the annotator
    writes. *)
Lemma writes_annotated_counterexample :
  ~ writes_annotated 1 1 "com.robot.core.config.xml.PetXMLInfo_xmlClass"
      plain_object.
Proof.
  intros H. specialize (H _ eq_refl).
  destruct H as [[x Hx]|[x Hx]]; [|discriminate Hx].
  symmetry in Hx. apply annotated_entries in Hx.
  apply Forall_inv in Hx. destruct Hx as [Hl|[k Hk]]; discriminate.
Qed.

(** ** The Flash extraction and the update run *)

Section UpdateProperties.

Variable str_strip : string -> string.
Variable zlib_decompress : bytes -> result bytes.
Variable swf_records : Type.
Variable extract_swf_data : bytes -> result swf_records.
Variable extract_binary_data : swf_records -> result (list (string * bytes)).
Variable AMF3Reader_read_object : bytes -> result (hval * heap).
Variable dict_to_xml : value -> result string.
Variable config_file_name : string -> string.
Variables (steps limit : nat).

Local Abbreviation extract :=
  (extract_configs_from_swf zlib_decompress swf_records extract_swf_data
     extract_binary_data).
Local Abbreviation content :=
  (segment_content zlib_decompress AMF3Reader_read_object dict_to_xml
     steps limit).
Local Abbreviation write :=
  (write_segment zlib_decompress AMF3Reader_read_object dict_to_xml
     config_file_name steps limit).
Local Abbreviation path_of := (segment_path config_file_name).

Lemma bytes_eqb_eq x : forall y, bytes_eqb x y = true <-> x = y.
Proof.
  induction x as [|a x IH]; intros [|b y]; simpl; try (split; congruence).
  rewrite andb_true_iff, IH. split.
  - intros [Hab ->]. apply Byte.byte_dec_bl in Hab. now subst.
  - intros [= -> ->]. split; [now apply Byte.byte_dec_lb|reflexivity].
Qed.

Lemma zlib_magic_prefix (value : bytes) :
  bytes_eqb (take 2 value) zlib_magic = true
  <-> exists rest, value = Byte.x78 :: Byte.xda :: rest.
Proof.
  rewrite bytes_eqb_eq. unfold zlib_magic. split.
  - destruct value as [|a [|b rest]]; simpl; try discriminate.
    intros [= -> ->]. now exists rest.
  - intros [rest ->]. reflexivity.
Qed.

Lemma segment_content_plain key value w :
  bytes_eqb (take 2 value) zlib_magic = false ->
  content key value w = (Ok value, w).
Proof. intros Hm. unfold segment_content. now rewrite Hm. Qed.

Lemma segment_content_magic key value w :
  bytes_eqb (take 2 value) zlib_magic = true ->
  content key value w
  = (inflated ← zlib_decompress value;
     decoded ← AMF3Reader_read_object inflated;
     tree ← segment_tree steps limit key decoded;
     xml ← dict_to_xml tree;
     mret (encode_utf8 xml),
     World (files w) (responses w)
       (trace w ++ EvDecompress value ::
          match zlib_decompress value with
          | Ok inflated => [EvReadObject inflated]
          | Raise _ => []
          end)).
Proof.
  intros Hm. unfold segment_content. rewrite Hm.
  unfold mbind, SE_bind, result_bind, log, lift, mret, SE_ret, result_ret.
  simpl.
  destruct (zlib_decompress value) as [inflated|e]; simpl; [|reflexivity].
  rewrite <- app_assoc. simpl.
  destruct (AMF3Reader_read_object inflated) as [decoded|e]; [|reflexivity].
  destruct (segment_tree steps limit key decoded) as [tree|e]; [|reflexivity].
  destruct (dict_to_xml tree) as [xml|e]; reflexivity.
Qed.

(** C10: a segment is inflated and decoded exactly when its first two
    bytes are [78 DA].  Such a segment is handed to [zlib.decompress],
    what that returns is handed to the object reader, and the bytes the
    segment yields and its file are the UTF-8 bytes of the serialization
    of the tree read, or the error of the first stage that fails, in
    which case nothing is written.  Any other segment, also one that
    starts with another header of the same compression such as [78 9C],
    yields its own bytes and is written as it is, and no decoder is
    called. *)
Theorem segment_decoded_iff_magic (dir key : string) (value : bytes)
    (w : world) :
  (bytes_eqb (take 2 value) zlib_magic = true
   <-> exists rest, value = Byte.x78 :: Byte.xda :: rest)
  /\ (EvDecompress value
        ∈ drop (length (trace w)) (trace (snd (content key value w)))
      <-> bytes_eqb (take 2 value) zlib_magic = true)
  /\ (bytes_eqb (take 2 value) zlib_magic = false ->
      content key value w = (Ok value, w)
      /\ write dir key value w
         = (Ok tt,
            World (<[path_of dir key := value]> (files w))
              (responses w) (trace w)))
  /\ (forall rest,
        content key (Byte.x78 :: Byte.x9c :: rest) w
        = (Ok (Byte.x78 :: Byte.x9c :: rest), w))
  /\ (bytes_eqb (take 2 value) zlib_magic = true ->
      let decoded_bytes : result bytes :=
        inflated ← zlib_decompress value;
        decoded ← AMF3Reader_read_object inflated;
        tree ← segment_tree steps limit key decoded;
        xml ← dict_to_xml tree;
        mret (encode_utf8 xml) in
      let calls : list event :=
        EvDecompress value ::
          match zlib_decompress value with
          | Ok inflated => [EvReadObject inflated]
          | Raise _ => []
          end in
      content key value w
      = (decoded_bytes, World (files w) (responses w) (trace w ++ calls))
      /\ write dir key value w
         = match decoded_bytes with
           | Ok xml_bytes =>
               (Ok tt,
                World (<[path_of dir key := xml_bytes]> (files w))
                  (responses w) (trace w ++ calls))
           | Raise e =>
               (Raise e, World (files w) (responses w) (trace w ++ calls))
           end).
Proof.
  split; [apply zlib_magic_prefix|]. split; [|split; [|split]].
  - destruct (bytes_eqb (take 2 value) zlib_magic) eqn:Hm.
    + rewrite segment_content_magic by exact Hm. simpl.
      rewrite drop_app_length. split; [reflexivity|]. intros _. now left.
    + rewrite segment_content_plain by exact Hm. simpl.
      rewrite drop_all. split; [|discriminate].
      intros H. now apply elem_of_nil in H.
  - intros Hm. split; [now apply segment_content_plain|].
    unfold write_segment, mbind, SE_bind.
    now rewrite segment_content_plain.
  - intros rest. reflexivity.
  - intros Hm decoded_bytes calls.
    split; [now apply segment_content_magic|].
    unfold write_segment. unfold mbind at 1. unfold SE_bind.
    rewrite segment_content_magic by exact Hm.
    fold decoded_bytes. destruct decoded_bytes; reflexivity.
Qed.

(** C7 (as amended): a segment that is not decoded is written to its
    file byte for byte.  A segment that is inflated and decoded is
    written as the UTF-8 bytes of the serialization of a tree: when a
    handler is registered for its name, the tree the handler returns,
    which is [{"root": t}] with [t] produced by the key annotator; when
    none is registered, the decoded tree as it is, its keys not
    prefixed. *)
Theorem write_segment_content (dir key : string) (value : bytes)
    (w : world) :
  (bytes_eqb (take 2 value) zlib_magic = false ->
   write dir key value w
   = (Ok tt,
      World (<[path_of dir key := value]> (files w))
        (responses w) (trace w)))
  /\ (forall inflated decoded tree xml,
        bytes_eqb (take 2 value) zlib_magic = true ->
        zlib_decompress value = Ok inflated ->
        AMF3Reader_read_object inflated = Ok decoded ->
        segment_tree steps limit key decoded = Ok tree ->
        dict_to_xml tree = Ok xml ->
        files (snd (write dir key value w)) !! path_of dir key
        = Some (encode_utf8 xml)
        /\ match AMF3_DATA_HANDLERS steps limit key with
           | Some handler =>
               fst (handler (fst decoded) (snd decoded)) = Ok tree
               /\ exists x, tree = VDict [("root", add_at_prefix_to_keys x)]
           | None => reify limit (snd decoded) (fst decoded) = Ok tree
           end).
Proof.
  split.
  - intros Hm. unfold write_segment, mbind, SE_bind.
    now rewrite segment_content_plain.
  - intros inflated decoded tree xml Hm Hz Hd Ht Hx. split.
    + unfold write_segment, mbind, SE_bind.
      rewrite segment_content_magic by exact Hm.
      rewrite Hz. simpl. rewrite Hd. simpl. rewrite Ht. simpl.
      rewrite Hx. simpl. apply lookup_insert_eq.
    + unfold segment_tree in Ht.
      destruct (AMF3_DATA_HANDLERS steps limit key) as [handler|] eqn:Hh.
      * split; [exact Ht|].
        eapply registered_handler_root; [exact Hh|exact Ht].
      * exact Ht.
Qed.

(** C8: the container decompressor drops the first seven bytes, three
    of signature and four of declared length, and inflates all the rest;
    the declared length is not looked at, so two containers that differ
    only in those four bytes give the same result. *)
Theorem extract_configs_from_swf_header
    (signature declared declared' body : bytes) :
  length signature = 3 -> length declared = 4 -> length declared' = 4 ->
  extract (signature ++ declared ++ body)
  = (decompressed ← zlib_decompress body;
     records ← extract_swf_data decompressed;
     extract_binary_data records)
  /\ extract (signature ++ declared' ++ body)
     = extract (signature ++ declared ++ body).
Proof.
  intros Hs Hd Hd'.
  assert (Hdrop : forall l, length l = 4 ->
            drop 7 (signature ++ l ++ body) = body).
  { intros l Hl. rewrite app_assoc. apply drop_app_length'.
    rewrite length_app. lia. }
  unfold extract_configs_from_swf.
  rewrite !Hdrop by assumption. split; reflexivity.
Qed.

Local Abbreviation check := (check_update str_strip).
Local Abbreviation update := (update_platform str_strip).
Local Abbreviation update_all := (update_platforms str_strip).










Local Abbreviation flash :=
  (Flash zlib_decompress swf_records extract_swf_data extract_binary_data
     AMF3Reader_read_object dict_to_xml config_file_name steps limit).


End UpdateProperties.

(** ** Sample runs *)



Lemma write_segment_content_witness :
  files (snd (write_segment stored_inflate one_record_object fixed_markup
                same_name 1 2 "flash"
                "com.robot.core.config.xml.SkillXMLInfo_xmlClass"
                [Byte.x78; Byte.xda] empty_world))
    !! "flash/com.robot.core.config.xml.SkillXMLInfo_xmlClass.xml"
  = Some (encode_utf8 "<root></root>")
  /\ exists x,
       VDict [("root", VDict [("item",
                VList [VDict [("@ID", VScalar (PyInt 5))]])])]
       = VDict [("root", add_at_prefix_to_keys x)].
Proof.
  destruct (write_segment_content stored_inflate one_record_object
              fixed_markup same_name 1 2 "flash"
              "com.robot.core.config.xml.SkillXMLInfo_xmlClass"
              [Byte.x78; Byte.xda] empty_world) as [_ Hdecoded].
  destruct (Hdecoded [Byte.x78; Byte.xda] (HRef 1, one_record)
              (VDict [("root", VDict [("item",
                 VList [VDict [("@ID", VScalar (PyInt 5))]])])])
              "<root></root>" eq_refl eq_refl eq_refl eq_refl eq_refl)
    as [Hfile [_ Hroot]].
  split; [exact Hfile|exact Hroot].
Defined.

Lemma segment_decoded_iff_magic_witness :
  segment_content stored_inflate one_record_object fixed_markup 1 2
    "segment" [Byte.x78; Byte.x01; Byte.x00] empty_world
  = (Ok [Byte.x78; Byte.x01; Byte.x00], empty_world)
  /\ segment_content stored_inflate one_record_object fixed_markup 1 2
       "segment" [Byte.x78; Byte.xda] empty_world
     = (Ok (encode_utf8 "<root></root>"),
        World ∅ []
          [EvDecompress [Byte.x78; Byte.xda];
           EvReadObject [Byte.x78; Byte.xda]])
  /\ write_segment corrupt_container one_record_object fixed_markup
       same_name 1 2 "flash" "segment" [Byte.x78; Byte.xda] empty_world
     = (Raise (ExternalError "corrupt container"),
        World ∅ [] [EvDecompress [Byte.x78; Byte.xda]]).
Proof.
  split; [|split].
  - destruct (segment_decoded_iff_magic stored_inflate one_record_object
                fixed_markup same_name 1 2 "flash" "segment"
                [Byte.x78; Byte.x01; Byte.x00] empty_world)
      as (_ & _ & Hplain & _).
    exact (proj1 (Hplain eq_refl)).
  - destruct (segment_decoded_iff_magic stored_inflate one_record_object
                fixed_markup same_name 1 2 "flash" "segment"
                [Byte.x78; Byte.xda] empty_world)
      as (_ & _ & _ & _ & Hmagic).
    exact (proj1 (Hmagic eq_refl)).
  - destruct (segment_decoded_iff_magic corrupt_container one_record_object
                fixed_markup same_name 1 2 "flash" "segment"
                [Byte.x78; Byte.xda] empty_world)
      as (_ & _ & _ & _ & Hmagic).
    exact (proj2 (Hmagic eq_refl)).
Defined.

Lemma extract_configs_from_swf_header_witness :
  extract_configs_from_swf stored_inflate bytes stored_inflate one_segment
    ([Byte.x43; Byte.x57; Byte.x53]
       ++ [Byte.xff; Byte.xff; Byte.xff; Byte.xff]
       ++ [Byte.x78; Byte.xda; Byte.x03])
  = extract_configs_from_swf stored_inflate bytes stored_inflate one_segment
      ([Byte.x43; Byte.x57; Byte.x53]
         ++ [Byte.x0a; Byte.x00; Byte.x00; Byte.x00]
         ++ [Byte.x78; Byte.xda; Byte.x03])
  /\ extract_configs_from_swf stored_inflate bytes stored_inflate one_segment
       ([Byte.x43; Byte.x57; Byte.x53]
          ++ [Byte.x0a; Byte.x00; Byte.x00; Byte.x00]
          ++ [Byte.x78; Byte.xda; Byte.x03])
     = Ok [("segment", [Byte.x78; Byte.xda; Byte.x03])].
Proof.
  destruct (extract_configs_from_swf_header stored_inflate bytes
              stored_inflate one_segment
              [Byte.x43; Byte.x57; Byte.x53]
              [Byte.x0a; Byte.x00; Byte.x00; Byte.x00]
              [Byte.xff; Byte.xff; Byte.xff; Byte.xff]
              [Byte.x78; Byte.xda; Byte.x03]
              eq_refl eq_refl eq_refl) as [Hbody Hsame].
  split; [exact Hsame|]. rewrite Hbody. reflexivity.
Defined.

(** ** The grouping handler when categories are shared *)

Lemma dict_get_set_eq {A} (d : list (string * A)) k v :
  Dict.get (Dict.set d k v) k = Some v.
Proof.
  induction d as [|[k' v'] d IH]; simpl.
  - now rewrite String.eqb_refl.
  - destruct (String.eqb_spec k' k) as [->|Hne]; simpl.
    + now rewrite String.eqb_refl.
    + destruct (String.eqb_spec k' k); [contradiction|exact IH].
Qed.

Lemma dict_get_set_ne {A} (d : list (string * A)) k k' v :
  k <> k' -> Dict.get (Dict.set d k v) k' = Dict.get d k'.
Proof.
  intros Hne. induction d as [|[k0 v0] d IH]; simpl.
  - destruct (String.eqb_spec k k'); [contradiction|reflexivity].
  - destruct (String.eqb_spec k0 k) as [->|Hne0]; simpl.
    + destruct (String.eqb_spec k k'); [contradiction|reflexivity].
    + now rewrite IH.
Qed.

Lemma key_eqb_refl s : key_eqb s s = true.
Proof.
  destruct s as [|b|z|s]; simpl;
    [reflexivity|now destruct b|apply Z.eqb_refl|apply String.eqb_refl].
Qed.

Lemma bind_ok {A B} (m : M A) (f : A -> M B) (h h' : heap) x :
  m h = (Ok x, h') -> (m ≫= f) h = f x h'.
Proof. intros Hm. unfold mbind, SE_bind. now rewrite Hm. Qed.

Lemma subscript_dict (h : heap) x d k v :
  h !! x = Some (ODict d) -> Dict.get d k = Some v ->
  subscript (HRef x) k h = (Ok v, h).
Proof. intros Hx Hk. unfold subscript. now rewrite Hx, Hk. Qed.

Lemma setitem_dict (h : heap) x d k v :
  h !! x = Some (ODict d) ->
  setitem (HRef x) k v h = (Ok tt, <[x := ODict (Dict.set d k v)]> h).
Proof. intros Hx. unfold setitem. now rewrite Hx. Qed.

Lemma append_list (h : heap) x l v :
  h !! x = Some (OList l) ->
  append (HRef x) v h = (Ok tt, <[x := OList (l ++ [v])]> h).
Proof. intros Hx. unfold append. now rewrite Hx. Qed.

(** *** The three writes of the loop and what they keep *)

Section Writes.
Variables (h0 h : heap).

(** A write to a field [item] or [CatID] of a [dict]. *)
Lemma dicts_kept_field x d k v :
  h !! x = Some (ODict d) -> k = "item" \/ k = "CatID" ->
  dicts_kept h0 h ->
  dicts_kept h0 (<[x := ODict (Dict.set d k v)]> h).
Proof.
  intros Hx Hk Hkept y d0 Hy.
  destruct (Hkept y d0 Hy) as (dy & Hdy & Hsame).
  destruct (decide (x = y)) as [->|Hne].
  - exists (Dict.set d k v). split.
    + apply list_lookup_insert_eq. now apply lookup_lt_Some in Hx.
    + intros k' Hi Hc. rewrite Hx in Hdy. injection Hdy as ->.
      rewrite dict_get_set_ne; [now apply Hsame|].
      destruct Hk; congruence.
  - exists dy. split; [|exact Hsame].
    now rewrite list_lookup_insert_ne.
Qed.

Lemma lists_kept_field x d o :
  h !! x = Some (ODict d) -> lists_kept h0 h ->
  lists_kept h0 (<[x := o]> h).
Proof.
  intros Hx Hkept y l Hy. specialize (Hkept y l Hy).
  rewrite list_lookup_insert_ne; [exact Hkept|]. congruence.
Qed.

(** The allocation of a list. *)
Lemma dicts_kept_alloc o : dicts_kept h0 h -> dicts_kept h0 (h ++ [o]).
Proof.
  intros Hkept y d0 Hy. destruct (Hkept y d0 Hy) as (dy & Hdy & Hsame).
  exists dy. split; [now apply lookup_app_l_Some|exact Hsame].
Qed.

Lemma lists_kept_alloc o : lists_kept h0 h -> lists_kept h0 (h ++ [o]).
Proof. intros Hkept y l Hy. apply lookup_app_l_Some. now apply Hkept. Qed.

(** An append to a list allocated by the loop. *)
Lemma dicts_kept_append x l o :
  h !! x = Some (OList l) -> dicts_kept h0 h ->
  dicts_kept h0 (<[x := o]> h).
Proof.
  intros Hx Hkept y d0 Hy. destruct (Hkept y d0 Hy) as (dy & Hdy & Hsame).
  exists dy. split; [|exact Hsame].
  rewrite list_lookup_insert_ne; [exact Hdy|]. congruence.
Qed.

Lemma lists_kept_append x o :
  length h0 <= x -> lists_kept h0 h -> lists_kept h0 (<[x := o]> h).
Proof.
  intros Hx Hkept y l Hy.
  rewrite list_lookup_insert_ne; [now apply Hkept|].
  apply lookup_lt_Some in Hy. lia.
Qed.

End Writes.

Section GroupWrites.
Variables (base : nat) (done firsts : list pair_entry) (h : heap).

Lemma groups_at_tag x d v :
  h !! x = Some (ODict d) ->
  groups_at base done firsts h ->
  groups_at base done firsts (<[x := ODict (Dict.set d "CatID" v)]> h).
Proof.
  intros Hx Hg k f Hf. destruct (Hg k f Hf) as [(dc & Hdc & Hitem) Hlist].
  split.
  - destruct (decide (x = cat_addr f)) as [->|Hne].
    + exists (Dict.set d "CatID" v). split.
      * apply list_lookup_insert_eq. now apply lookup_lt_Some in Hx.
      * rewrite Hx in Hdc. injection Hdc as ->.
        now rewrite dict_get_set_ne.
    + exists dc. split; [|exact Hitem]. now rewrite list_lookup_insert_ne.
  - rewrite list_lookup_insert_ne; [exact Hlist|]. congruence.
Qed.

Lemma items_tagged_tag e d :
  h !! item_addr e = Some (ODict d) ->
  (forall e', e' ∈ done -> item_addr e' = item_addr e ->
     cat_id e' = cat_id e) ->
  items_tagged done h ->
  items_tagged (done ++ [e])
    (<[item_addr e := ODict (Dict.set d "CatID" (HScalar (cat_id e)))]> h).
Proof.
  intros Hx Hid Ht e' He'.
  assert (Hlt : item_addr e < length h) by now apply lookup_lt_Some in Hx.
  destruct (decide (item_addr e' = item_addr e)) as [Heq|Hne].
  - rewrite Heq. eexists. split; [now apply list_lookup_insert_eq|].
    rewrite dict_get_set_eq. do 2 f_equal.
    apply elem_of_app in He' as [He'|He'].
    + symmetry. now apply Hid.
    + apply list_elem_of_singleton in He'. now subst.
  - apply elem_of_app in He' as [He'|He'].
    + destruct (Ht e' He') as (d' & Hd' & Htag). exists d'.
      split; [|exact Htag]. rewrite list_lookup_insert_ne; [exact Hd'|].
      congruence.
    + apply list_elem_of_singleton in He'. now subst.
Qed.

Lemma items_tagged_append x l o :
  h !! x = Some (OList l) -> items_tagged done h ->
  items_tagged done (<[x := o]> h).
Proof.
  intros Hx Ht e He. destruct (Ht e He) as (d & Hd & Htag).
  exists d. split; [|exact Htag].
  rewrite list_lookup_insert_ne; [exact Hd|]. congruence.
Qed.

Lemma groups_at_append e k f :
  NoDup (cat_addr <$> firsts) ->
  firsts !! k = Some f -> cat_addr f = cat_addr e ->
  groups_at base done firsts h ->
  groups_at base (done ++ [e]) firsts
    (<[base + k :=
         OList ((HRef <$> (item_addr <$>
                   filter (fun e' => cat_addr e' = cat_addr f) done))
                ++ [HRef (item_addr e)])]> h).
Proof.
  intros Hnd Hk Hcat Hg j g Hj.
  destruct (Hg j g Hj) as [(dc & Hdc & Hitem) Hlist].
  destruct (Hg k f Hk) as [_ Hlistk].
  split.
  - exists dc. split; [|exact Hitem].
    rewrite list_lookup_insert_ne; [exact Hdc|]. congruence.
  - rewrite filter_app, !fmap_app.
    destruct (decide (j = k)) as [->|Hne].
    + assert (g = f) by congruence. subst g.
      rewrite filter_cons_True by (simpl; congruence).
      rewrite list_lookup_insert_eq by now apply lookup_lt_Some in Hlistk.
      reflexivity.
    + assert (Hcats : cat_addr g <> cat_addr e).
      { intros Heq. apply Hne.
        apply (NoDup_lookup (cat_addr <$> firsts) j k (cat_addr g)).
        - exact Hnd.
        - now rewrite list_lookup_fmap, Hj.
        - rewrite list_lookup_fmap, Hk. simpl. congruence. }
      rewrite filter_cons_False by (simpl; congruence).
      rewrite filter_nil, !fmap_nil, app_nil_r.
      rewrite list_lookup_insert_ne by lia. exact Hlist.
Qed.

End GroupWrites.

Section Grouping.
Variables (h0 : heap) (es : list pair_entry).
Hypothesis Hpairs : pairs_in h0 es.
Hypothesis Hshare : one_object_per_category es.
Hypothesis Hitems : one_category_per_item es.

Lemma grouping_inv_start : grouping_inv h0 es [] h0 [].
Proof.
  split.
  - simpl. lia.
  - intros f Hf. now apply elem_of_nil in Hf.
  - intros e He. now apply elem_of_nil in He.
  - constructor.
  - intros x d0 Hx. exists d0. split; [exact Hx|reflexivity].
  - intros x l Hx. exact Hx.
  - intros k f Hf. rewrite lookup_nil in Hf. discriminate.
  - intros e He. now apply elem_of_nil in He.
Qed.

(** A category seen for the first time gets an empty list. *)
Lemma register_step done h firsts e d :
  grouping_inv h0 es done h firsts ->
  e ∈ es ->
  cat_addr e ∉ cat_addr <$> firsts ->
  h !! cat_addr e = Some (ODict d) ->
  grouping_inv h0 es done
    (<[cat_addr e := ODict (Dict.set d "item" (HRef (length h)))]>
       (h ++ [OList []]))
    (firsts ++ [e]).
Proof.
  intros [Hlen Hin Hcover Hnd Hdicts Hlists Hgroups Htagged] He Hnew Hc.
  assert (Hc' : (h ++ [OList []]) !! cat_addr e = Some (ODict d))
    by now apply lookup_app_l_Some.
  assert (Hlt : cat_addr e < length h) by now apply lookup_lt_Some in Hc.
  split.
  - rewrite length_insert, !length_app. simpl. lia.
  - intros f Hf. apply elem_of_app in Hf as [Hf|Hf]; [now apply Hin|].
    apply list_elem_of_singleton in Hf. now subst.
  - intros e' He'. rewrite fmap_app. apply elem_of_app. left.
    now apply Hcover.
  - rewrite fmap_app. apply NoDup_app. split; [exact Hnd|]. split.
    + intros x Hx Hx'. apply list_elem_of_singleton in Hx'. now subst.
    + apply NoDup_singleton.
  - eapply dicts_kept_field; [exact Hc'|now left|].
    now apply dicts_kept_alloc.
  - eapply lists_kept_field; [exact Hc'|]. now apply lists_kept_alloc.
  - intros k f Hf. apply lookup_snoc_Some in Hf as [[Hk Hf]|[Hk <-]].
    + destruct (Hgroups k f Hf) as [(dc & Hdc & Hitem) Hlist].
      assert (Hne : cat_addr e <> cat_addr f).
      { intros Heq. apply Hnew. rewrite Heq.
        apply list_elem_of_fmap_2. now apply list_elem_of_lookup_2 in Hf. }
      split.
      * exists dc. split; [|exact Hitem].
        rewrite list_lookup_insert_ne by exact Hne.
        now apply lookup_app_l_Some.
      * rewrite list_lookup_insert_ne by congruence.
        now apply lookup_app_l_Some.
    + split.
      * exists (Dict.set d "item" (HRef (length h))). split.
        -- apply list_lookup_insert_eq. rewrite length_app. simpl. lia.
        -- rewrite dict_get_set_eq. do 2 f_equal. lia.
      * rewrite list_lookup_insert_ne by lia.
        replace (length h0 + k) with (length h) by lia.
        rewrite list_lookup_middle by reflexivity.
        replace (filter (fun e' => cat_addr e' = cat_addr e) done)
          with (@nil pair_entry); [reflexivity|].
        symmetry. apply elem_of_nil_inv. intros e' He'.
        apply list_elem_of_filter in He' as [Hcat He'].
        apply Hnew. rewrite <- Hcat. now apply Hcover.
  - intros e' He'. destruct (Htagged e' He') as (d' & Hd' & Htag).
    destruct (decide (cat_addr e = item_addr e')) as [Heq|Hne].
    + rewrite <- Heq. eexists.
      split; [apply list_lookup_insert_eq; rewrite length_app; simpl; lia|].
      rewrite <- Heq, Hc in Hd'. injection Hd' as ->.
      now rewrite dict_get_set_ne.
    + exists d'. split; [|exact Htag].
      rewrite list_lookup_insert_ne by exact Hne.
      now apply lookup_app_l_Some.
Qed.

(** The item of a pair is tagged and appended to the list of its
    category. *)
Lemma add_step done h firsts e k f d :
  grouping_inv h0 es done h firsts ->
  (forall e', e' ∈ done -> e' ∈ es) ->
  e ∈ es ->
  firsts !! k = Some f -> cat_addr f = cat_addr e ->
  h !! item_addr e = Some (ODict d) ->
  grouping_inv h0 es (done ++ [e])
    (<[length h0 + k :=
         OList ((HRef <$> (item_addr <$>
                   filter (fun e' => cat_addr e' = cat_addr f) done))
                ++ [HRef (item_addr e)])]>
       (<[item_addr e := ODict (Dict.set d "CatID" (HScalar (cat_id e)))]> h))
    firsts.
Proof.
  intros [Hlen Hin Hcover Hnd Hdicts Hlists Hgroups Htagged]
    Hdone He Hk Hcat Ht.
  pose proof (groups_at_tag _ _ _ _ _ _ (HScalar (cat_id e)) Ht Hgroups)
    as Hgroups'.
  destruct (Hgroups' k f Hk) as [_ Hlist].
  split.
  - rewrite !length_insert. exact Hlen.
  - exact Hin.
  - intros e' He'. apply elem_of_app in He' as [He'|He'].
    + now apply Hcover.
    + apply list_elem_of_singleton in He'. subst e'. rewrite <- Hcat.
      apply list_elem_of_fmap_2. now apply list_elem_of_lookup_2 in Hk.
  - exact Hnd.
  - eapply dicts_kept_append; [exact Hlist|].
    eapply dicts_kept_field; [exact Ht|now right|exact Hdicts].
  - apply lists_kept_append; [lia|].
    eapply lists_kept_field; [exact Ht|exact Hlists].
  - now apply groups_at_append.
  - eapply items_tagged_append; [exact Hlist|].
    apply items_tagged_tag; [exact Ht| |exact Htagged].
    intros e' He' Haddr. apply Hitems; auto.
Qed.

Lemma same_category_same_id e f :
  e ∈ es -> f ∈ es -> cat_addr f = cat_addr e -> cat_id f = cat_id e.
Proof.
  intros He Hf Heq.
  destruct (Hpairs e He) as (_ & (d & Hd & Hid) & _).
  destruct (Hpairs f Hf) as (_ & (d' & Hd' & Hid') & _).
  rewrite Heq, Hd in Hd'. injection Hd' as <-. congruence.
Qed.

Lemma contains_registered firsts e :
  (forall f, f ∈ firsts -> f ∈ es) -> e ∈ es ->
  contains (result_entry <$> firsts) (cat_id e) = true
  <-> cat_addr e ∈ cat_addr <$> firsts.
Proof.
  intros Hin He. unfold contains. rewrite existsb_exists. split.
  - intros (x & Hx & Hkey). apply list_elem_of_In in Hx.
    apply list_elem_of_fmap in Hx as (f & -> & Hf). simpl in Hkey.
    rewrite <- (Hshare f e (Hin f Hf) He Hkey).
    now apply list_elem_of_fmap_2.
  - intros Hc. apply list_elem_of_fmap in Hc as (f & Heq & Hf).
    exists (result_entry f). split.
    + apply list_elem_of_In. now apply list_elem_of_fmap_2.
    + simpl. rewrite (same_category_same_id e f He (Hin f Hf)) by congruence.
      apply key_eqb_refl.
Qed.

(** Lines 48-50 for a pair whose category is registered. *)
Lemma item_body_add done h firsts e k f (result' : list (scalar * hval)) :
  grouping_inv h0 es done h firsts ->
  (forall e', e' ∈ done -> e' ∈ es) ->
  e ∈ es ->
  firsts !! k = Some f -> cat_addr f = cat_addr e ->
  exists h',
    (item ← subscript (HRef (pair_addr e)) "itemObj";
     setitem item "CatID" (HScalar (cat_id e));;
     items ← subscript (HRef (cat_addr e)) "item";
     append items item;;
     mret result') h = (Ok result', h')
    /\ grouping_inv h0 es (done ++ [e]) h' firsts.
Proof.
  intros Hinv Hdone He Hk Hcat.
  destruct (Hpairs e He) as ((dp0 & Hp0 & _ & Hitem0) & _ & (dt0 & Ht0)).
  destruct (inv_dicts _ _ _ _ _ Hinv _ _ Hp0) as (dp & Hp & Hsame).
  destruct (inv_dicts _ _ _ _ _ Hinv _ _ Ht0) as (dt & Ht & _).
  pose proof (groups_at_tag _ _ _ _ _ _ (HScalar (cat_id e)) Ht
                (inv_groups _ _ _ _ _ Hinv)) as Hgroups.
  destruct (Hgroups k f Hk) as [(dc & Hdc & Hfield) Hlist].
  rewrite Hcat in Hdc.
  eexists. split.
  - erewrite bind_ok; cycle 1.
    { eapply subscript_dict; [exact Hp|].
      rewrite Hsame by discriminate. exact Hitem0. }
    erewrite bind_ok; cycle 1.
    { eapply setitem_dict. exact Ht. }
    erewrite bind_ok; cycle 1.
    { eapply subscript_dict; [exact Hdc|exact Hfield]. }
    erewrite bind_ok; cycle 1.
    { eapply append_list. exact Hlist. }
    reflexivity.
  - now apply add_step.
Qed.

Lemma register_entry_new firsts e :
  cat_addr e ∉ cat_addr <$> firsts -> register_entry firsts e = firsts ++ [e].
Proof. intros Hn. unfold register_entry. now rewrite decide_False. Qed.

Lemma register_entry_old firsts e :
  cat_addr e ∈ cat_addr <$> firsts -> register_entry firsts e = firsts.
Proof. intros Hn. unfold register_entry. now rewrite decide_True. Qed.

(** One pass of the loop. *)
Lemma item_body_step done h firsts e :
  grouping_inv h0 es done h firsts ->
  (forall e', e' ∈ done -> e' ∈ es) ->
  e ∈ es ->
  exists h',
    item_body (HRef (pair_addr e)) (result_entry <$> firsts) h
    = (Ok (result_entry <$> register_entry firsts e), h')
    /\ grouping_inv h0 es (done ++ [e]) h' (register_entry firsts e).
Proof.
  intros Hinv Hdone He.
  destruct (Hpairs e He) as ((dp0 & Hp0 & Hcat0 & _) & (dc0 & Hc0 & Hid0) & _).
  destruct (inv_dicts _ _ _ _ _ Hinv _ _ Hp0) as (dp & Hp & Hsame_p).
  destruct (inv_dicts _ _ _ _ _ Hinv _ _ Hc0) as (dc & Hc & Hsame_c).
  unfold item_body.
  erewrite bind_ok; cycle 1.
  { eapply subscript_dict; [exact Hp|].
    rewrite Hsame_p by discriminate. exact Hcat0. }
  erewrite bind_ok; cycle 1.
  { eapply subscript_dict; [exact Hc|].
    rewrite Hsame_c by discriminate. exact Hid0. }
  erewrite bind_ok; [|reflexivity].
  pose proof (contains_registered firsts e (inv_firsts_in _ _ _ _ _ Hinv) He)
    as Hcontains.
  destruct (decide (cat_addr e ∈ cat_addr <$> firsts)) as [Hold|Hnew].
  - rewrite register_entry_old by exact Hold.
    apply Hcontains in Hold as Htrue. rewrite Htrue.
    erewrite bind_ok; [|reflexivity].
    apply list_elem_of_fmap in Hold as (f & Heq & Hf).
    apply list_elem_of_lookup_1 in Hf as [k Hk].
    eapply item_body_add; eauto.
  - rewrite register_entry_new by exact Hnew.
    destruct (contains (result_entry <$> firsts) (cat_id e)) eqn:Hfalse.
    { exfalso. apply Hnew. now apply Hcontains. }
    erewrite bind_ok; cycle 1.
    { erewrite bind_ok; [|reflexivity].
      erewrite bind_ok; cycle 1.
      { eapply setitem_dict. apply lookup_app_l_Some. exact Hc. }
      reflexivity. }
    rewrite fmap_app. simpl.
    pose proof (register_step _ _ _ _ _ Hinv He Hnew Hc) as Hinv'.
    eapply (item_body_add done _ (firsts ++ [e]) e (length firsts) e);
      [exact Hinv'|exact Hdone|exact He| |reflexivity].
    now apply list_lookup_middle.
Qed.

Variable a : nat.
Hypothesis Hdata : h0 !! a = Some (OList (HRef <$> (pair_addr <$> es))).

Lemma iter_next_pairs done h firsts i :
  grouping_inv h0 es done h firsts ->
  iter_next (HRef a) i h = (Ok (HRef <$> (pair_addr <$> es !! i)), h).
Proof.
  intros Hinv. unfold iter_next.
  rewrite (inv_lists _ _ _ _ _ Hinv _ _ Hdata).
  now rewrite !list_lookup_fmap.
Qed.

(** The loop of lines 41-50 on the pairs still to come. *)
Lemma item_loop_groups todo : forall done h firsts steps,
  es = done ++ todo ->
  grouping_inv h0 es done h firsts ->
  length todo < steps ->
  exists h',
    item_loop steps (HRef a) (length done) (result_entry <$> firsts) h
    = (Ok (result_entry <$> foldl register_entry firsts todo), h')
    /\ grouping_inv h0 es es h' (foldl register_entry firsts todo).
Proof.
  induction todo as [|e todo IH]; intros done h firsts steps Hes Hinv Hsteps.
  - destruct steps as [|steps]; [simpl in Hsteps; lia|].
    rewrite app_nil_r in Hes. subst done.
    exists h. split; [|exact Hinv]. simpl.
    erewrite bind_ok; [|eapply iter_next_pairs; exact Hinv].
    rewrite lookup_ge_None_2 by lia. reflexivity.
  - destruct steps as [|steps]; [simpl in Hsteps; lia|].
    simpl in Hsteps.
    assert (He : e ∈ es).
    { rewrite Hes. apply elem_of_app. right. now left. }
    assert (Hdone : forall e', e' ∈ done -> e' ∈ es).
    { intros e' He'. rewrite Hes. apply elem_of_app. now left. }
    destruct (item_body_step done h firsts e Hinv Hdone He)
      as (h1 & Hbody & Hinv1).
    destruct (IH (done ++ [e]) h1 (register_entry firsts e) steps)
      as (h' & Hloop & Hinv'); [now rewrite <- app_assoc|exact Hinv1|lia|].
    exists h'. split; [|exact Hinv']. simpl.
    erewrite bind_ok; [|eapply iter_next_pairs; exact Hinv].
    assert (Hnext : es !! length done = Some e).
    { rewrite Hes. now apply list_lookup_middle. }
    rewrite Hnext. simpl.
    erewrite bind_ok; [|exact Hbody].
    rewrite length_app in Hloop. simpl in Hloop.
    replace (S (length done)) with (length done + 1) by lia.
    exact Hloop.
Qed.

(** X4: when the pairs of one category ID share one category object and
    every item belongs to one category, the loop of the grouping handler
    completes: it registers each category once, in the order in which
    the categories are first seen, the list under [item] of a category
    holds the items of its pairs in the order of the input, and every
    item carries the ID of its category under [CatID].  The handler then
    reads the trees of the categories as they then are: it returns their
    images under the key annotator, or raises what reading them raises,
    as it does when an item holds itself or its category. *)
Lemma handle_item_xml_info_groups (steps limit : nat) :
  length es < steps ->
  exists h',
    handle_item_xml_info steps limit (HRef a) h0
    = (match
         mapM_result (reify limit h') (HRef <$> (cat_addr <$> first_seen es))
       with
       | Ok trees =>
           Ok (VDict [("root",
                       VDict [("items",
                               VList (add_at_prefix_to_keys <$> trees))])])
       | Raise x => Raise x
       end, h')
    /\ grouping_inv h0 es es h' (first_seen es).
Proof.
  intros Hsteps.
  destruct (item_loop_groups es [] h0 [] steps eq_refl grouping_inv_start
              Hsteps) as (h' & Hloop & Hinv).
  exists h'. split; [|exact Hinv].
  unfold handle_item_xml_info.
  erewrite bind_ok; [|exact Hloop].
  unfold mbind, SE_bind, read_trees.
  rewrite <- list_fmap_compose.
  replace (snd ∘ result_entry) with (HRef ∘ cat_addr) by reflexivity.
  rewrite list_fmap_compose. fold (first_seen es).
  destruct (mapM_result _ _); reflexivity.
Qed.

End Grouping.

Example shared_entries_grouped :
  three_pairs_shared !! 8
  = Some (OList (HRef <$> (pair_addr <$> shared_entries)))
  /\ pairs_in three_pairs_shared shared_entries
  /\ one_object_per_category shared_entries
  /\ one_category_per_item shared_entries
  /\ cat_addr <$> first_seen shared_entries = [0; 5].
Proof.
  split; [reflexivity|]. split; [|split; [|split; [|reflexivity]]].
  - intros e He. unfold shared_entries in He.
    repeat (apply elem_of_cons in He as [->|He]);
      [..|now apply elem_of_nil in He];
      (split; [|split]); eexists; simpl; eauto.
  - intros e e' He He'. unfold shared_entries in He, He'.
    repeat (apply elem_of_cons in He as [->|He]);
      [..|now apply elem_of_nil in He];
      repeat (apply elem_of_cons in He' as [->|He']);
      try (now apply elem_of_nil in He'); simpl; congruence.
  - intros e e' He He'. unfold shared_entries in He, He'.
    repeat (apply elem_of_cons in He as [->|He]);
      [..|now apply elem_of_nil in He];
      repeat (apply elem_of_cons in He' as [->|He']);
      try (now apply elem_of_nil in He'); simpl; congruence.
Qed.

(** * Further properties *)

(** ** The key annotator *)

Lemma dict_set_elem {A} (d : list (string * A)) k v e :
  e ∈ Dict.set d k v -> e ∈ d \/ e = (k, v).
Proof.
  induction d as [|[k' v'] d IH]; simpl; intros He.
  - apply list_elem_of_singleton in He. now right.
  - destruct (String.eqb_spec k' k) as [->|Hne].
    + apply elem_of_cons in He as [->|He]; [now right|].
      left. now right.
    + apply elem_of_cons in He as [->|He]; [left; now left|].
      destruct (IH He) as [Hd | ->]; [left; now right|now right].
Qed.

Lemma dict_set_keys {A} (d : list (string * A)) k v :
  Dict.keys (Dict.set d k v)
  = if decide (k ∈ Dict.keys d) then Dict.keys d else Dict.keys d ++ [k].
Proof.
  induction d as [|[k' v'] d IH].
  - destruct (decide (k ∈ Dict.keys [])) as [H|_]; [|reflexivity].
    now apply elem_of_nil in H.
  - cbn [Dict.set].
    change (Dict.keys ((k', v') :: d)) with (k' :: Dict.keys d).
    destruct (String.eqb_spec k' k) as [->|Hne].
    + destruct (decide (k ∈ k :: Dict.keys d)) as [_|H]; [reflexivity|].
      exfalso. apply H. now left.
    + change (Dict.keys ((k', v') :: Dict.set d k v))
        with (k' :: Dict.keys (Dict.set d k v)).
      rewrite IH.
      destruct (decide (k ∈ Dict.keys d)) as [Hin|Hout];
        destruct (decide (k ∈ k' :: Dict.keys d)) as [Hin'|Hout'];
        try reflexivity.
      * exfalso. apply Hout'. now right.
      * exfalso. apply elem_of_cons in Hin' as [H|H]; congruence.
Qed.

(** Every entry the loop of the annotator leaves in [result] was there
    before or is the image of an entry of the input. *)
Lemma annotate_loop_elem d : forall acc e,
  e ∈ fold_left annotate_step d acc ->
  e ∈ acc \/ exists x, x ∈ d /\ e = annotated_entry x.
Proof.
  induction d as [|x d IH]; intros acc e He; simpl in He; [now left|].
  destruct (IH _ _ He) as [Hacc | (y & Hy & ->)].
  - unfold annotate_step in Hacc.
    destruct (dict_set_elem _ _ _ _ Hacc) as [H | ->]; [now left|].
    right. exists x. split; [now left|reflexivity].
  - right. exists y. split; [now right|reflexivity].
Qed.

Lemma annotate_loop_keys d : forall acc,
  NoDup (Dict.keys acc) ->
  NoDup (Dict.keys (fold_left annotate_step d acc))
  /\ forall k, k ∈ Dict.keys (fold_left annotate_step d acc)
               <-> k ∈ Dict.keys acc \/ k ∈ annotated_key <$> d.
Proof.
  induction d as [|x d IH]; intros acc Hnd; simpl.
  - split; [exact Hnd|]. intros k. rewrite elem_of_nil. tauto.
  - assert (Hstep : NoDup (Dict.keys (annotate_step acc x))
                    /\ forall k, k ∈ Dict.keys (annotate_step acc x)
                                 <-> k ∈ Dict.keys acc \/ k = annotated_key x).
    { unfold annotate_step. rewrite dict_set_keys.
      destruct (decide (annotated_key x ∈ Dict.keys acc)) as [Hin|Hout].
      - split; [exact Hnd|]. intros k. split; [tauto|].
        intros [H|Heq]; [assumption|now subst].
      - split.
        + apply NoDup_app. split; [exact Hnd|]. split.
          * intros k Hk Hk'. apply list_elem_of_singleton in Hk'. congruence.
          * apply NoDup_singleton.
        + intros k. rewrite elem_of_app, list_elem_of_singleton. tauto. }
    destruct Hstep as [Hnd' Hkeys'].
    destruct (IH _ Hnd') as [Hnd'' Hkeys''].
    split; [exact Hnd''|].
    intros k. rewrite Hkeys'', Hkeys', elem_of_cons. tauto.
Qed.

(** X1: whatever the input, the output of the annotator holds, at every
    depth, only entries whose key starts with ["@"] or whose value is a
    list: it never leaves a bare key on a scalar or on a map. *)
Theorem add_at_prefix_to_keys_well_annotated (t : value) :
  well_annotated (add_at_prefix_to_keys t).
Proof.
  induction t as [s|l IH|d IH] using value_induction.
  - exact I.
  - simpl. induction IH as [|v l Hv _ IHl]; simpl; [exact I|].
    split; assumption.
  - rewrite add_at_prefix_to_keys_dict.
    assert (Hall : Forall (fun e => attribute_or_list e
                                    /\ well_annotated (snd e))
                     (fold_left annotate_step d [])).
    { apply Forall_forall. intros e He.
      apply annotate_loop_elem in He as [He|(x & Hx & ->)].
      - now apply elem_of_nil in He.
      - split.
        + unfold attribute_or_list, annotated_entry, annotated_key. simpl.
          rewrite is_list_annotate.
          destruct (is_list (snd x)); [now left|right; eauto].
        + simpl. rewrite Forall_forall in IH. now apply IH. }
    simpl. induction Hall as [|e es [He1 He2] _ IHes]; simpl; [exact I|].
    repeat split; assumption.
Qed.

(** X2: the annotator never adds entries to a map.  The output map has
    at most as many entries as the input, and exactly as many if and only
    if no two entries of the input get the same key under prefixing. *)
Theorem add_at_prefix_to_keys_entries (d d' : list (string * value)) :
  add_at_prefix_to_keys (VDict d) = VDict d' ->
  length d' <= length d
  /\ (length d' = length d <-> NoDup (annotated_key <$> d)).
Proof.
  rewrite add_at_prefix_to_keys_dict. intros [= <-].
  destruct (annotate_loop_keys d [] (NoDup_nil_2)) as [Hnd Hkeys].
  set (d' := fold_left annotate_step d []) in *.
  assert (Hsub : Dict.keys d' ⊆+ annotated_key <$> d).
  { apply NoDup_submseteq; [exact Hnd|].
    intros k Hk. apply Hkeys in Hk as [Hk|Hk]; [|exact Hk].
    now apply elem_of_nil in Hk. }
  assert (Hlen : length d' = length (Dict.keys d'))
    by (unfold Dict.keys; now rewrite length_fmap).
  assert (Hlen' : length d = length (annotated_key <$> d))
    by now rewrite length_fmap.
  split.
  - rewrite Hlen, Hlen'. now apply submseteq_length.
  - split.
    + intros Heq. rewrite Hlen, Hlen' in Heq.
      assert (Hperm : Dict.keys d' ≡ₚ annotated_key <$> d).
      { apply submseteq_length_Permutation; [exact Hsub|lia]. }
      now rewrite <- Hperm.
    + intros Hnd'. rewrite Hlen, Hlen'. apply Permutation_length.
      apply NoDup_Permutation; [exact Hnd|exact Hnd'|].
      intros k. rewrite Hkeys, elem_of_nil. tauto.
Qed.

Lemma add_at_prefix_to_keys_entries_witness :
  add_at_prefix_to_keys colliding_tree = VDict [("@a", VScalar (PyInt 1))]
  /\ length [("@a", VScalar (PyInt 1))] <= 2
  /\ ~ NoDup (annotated_key <$>
               [("@a", VList []); ("a", VScalar (PyInt 1))]).
Proof.
  destruct (add_at_prefix_to_keys_entries
              [("@a", VList []); ("a", VScalar (PyInt 1))]
              [("@a", VScalar (PyInt 1))] eq_refl) as [Hle Hiff].
  split; [reflexivity|]. split; [exact Hle|].
  intros Hnd. apply Hiff in Hnd. discriminate Hnd.
Defined.

Lemma fmap_fixed {A} (f : A -> A) (l : list A) :
  f <$> l = l -> Forall (fun x => f x = x) l.
Proof.
  induction l as [|x l IH]; intros H; constructor;
    rewrite fmap_cons in H; injection H as Hx Hl; auto.
Qed.

Lemma annotate_fixed_lists d :
  fold_left annotate_step d [] = d ->
  forall n e, e ∈ d -> String.length (fst e) = n -> is_list (snd e) = true.
Proof.
  intros Hfix n. induction n as [n IH] using lt_wf_ind. intros e He Hn.
  destruct (is_list (snd e)) eqn:Hlist; [reflexivity|exfalso].
  pose proof He as He'. rewrite <- Hfix in He'.
  apply annotate_loop_elem in He' as [He'|(x & Hx & ->)].
  { now apply elem_of_nil in He'. }
  simpl in Hlist, Hn. rewrite is_list_annotate in Hlist.
  unfold annotated_key in Hn. rewrite Hlist in Hn. simpl in Hn.
  assert (Hx' : is_list (snd x) = true).
  { apply (IH (String.length (fst x))); [lia|exact Hx|reflexivity]. }
  congruence.
Qed.

(** X3: the annotator returns its argument unchanged only when the
    argument has no entry to prefix: if [add_at_prefix_to_keys t = t]
    then every value of every map of [t], at every depth, is a list.  A
    second application therefore always changes a tree that holds an
    attribute. *)
Theorem add_at_prefix_to_keys_fixed (t : value) :
  add_at_prefix_to_keys t = t -> attribute_free t.
Proof.
  induction t as [s|l IH|d IH] using value_induction; intros Hfix.
  - exact I.
  - simpl in Hfix. injection Hfix as Hfix. apply fmap_fixed in Hfix.
    simpl. induction IH as [|v l Hv _ IHl]; simpl; [exact I|].
    apply Forall_cons in Hfix as [Hv' Hl']. split; auto.
  - rewrite add_at_prefix_to_keys_dict in Hfix. injection Hfix as Hfix.
    assert (Hlists : Forall (fun e => is_list (snd e) = true) d).
    { apply Forall_forall. intros e He.
      now apply (annotate_fixed_lists d Hfix (String.length (fst e))). }
    assert (Hkeys : annotated_key <$> d = Dict.keys d).
    { unfold Dict.keys. apply Forall_fmap_ext.
      eapply Forall_impl; [exact Hlists|].
      intros e He. unfold annotated_key. now rewrite He. }
    assert (Hnd : NoDup (annotated_key <$> d)).
    { rewrite Hkeys. rewrite <- Hfix at 1.
      now apply (annotate_loop_keys d [] NoDup_nil_2). }
    rewrite annotate_loop_distinct in Hfix by exact Hnd.
    simpl in Hfix. apply fmap_fixed in Hfix.
    simpl. clear Hkeys Hnd.
    induction IH as [|e d He _ IHd]; simpl; [exact I|].
    apply Forall_cons in Hfix as [He' Hd'].
    apply Forall_cons in Hlists as [Hl Hls].
    split; [exact Hl|]. split; [|now apply IHd].
    apply He. unfold annotated_entry in He'.
    destruct e as [k v]. simpl in *. congruence.
Qed.

Lemma add_at_prefix_to_keys_fixed_witness :
  add_at_prefix_to_keys (VDict [("item", VList [VScalar (PyInt 1)])])
  = VDict [("item", VList [VScalar (PyInt 1)])]
  /\ attribute_free (VDict [("item", VList [VScalar (PyInt 1)])]).
Proof.
  split; [reflexivity|].
  exact (add_at_prefix_to_keys_fixed
           (VDict [("item", VList [VScalar (PyInt 1)])]) eq_refl).
Defined.

(** ** The record handlers *)

Lemma handle_item_xml_info_groups_witness :
  three_pairs_shared !! 8
  = Some (OList (HRef <$> (pair_addr <$> shared_entries)))
  /\ pairs_in three_pairs_shared shared_entries
  /\ one_object_per_category shared_entries
  /\ one_category_per_item shared_entries
  /\ exists h',
       handle_item_xml_info 4 3 (HRef 8) three_pairs_shared
       = (match
            mapM_result (reify 3 h')
              (HRef <$> (cat_addr <$> first_seen shared_entries))
          with
          | Ok trees =>
              Ok (VDict [("root",
                          VDict [("items",
                                  VList (add_at_prefix_to_keys <$> trees))])])
          | Raise x => Raise x
          end, h')
       /\ grouping_inv three_pairs_shared shared_entries shared_entries h'
            (first_seen shared_entries).
Proof.
  destruct shared_entries_grouped as (Hdata & Hpairs & Hshare & Hitems & _).
  repeat (split; [assumption|]).
  apply (handle_item_xml_info_groups three_pairs_shared shared_entries
           Hpairs Hshare Hitems 8 Hdata 4 3).
  simpl. lia.
Defined.

Lemma dict_remove_keys {A} (d : list (string * A)) k :
  NoDup (Dict.keys d) -> k ∉ Dict.keys (Dict.remove d k).
Proof.
  induction d as [|[k' v'] d IH]; simpl; intros Hnd.
  - apply not_elem_of_nil.
  - apply NoDup_cons in Hnd as [Hk' Hnd].
    destruct (String.eqb_spec k' k) as [->|Hne]; [exact Hk'|].
    simpl. apply not_elem_of_cons. split; [congruence|now apply IH].
Qed.

Lemma delete_class_missing (h : heap) e d :
  h !! e = Some (ODict d) -> "__class__" ∉ Dict.keys d ->
  _delete_class (HRef e) h = (Raise (KeyError "__class__"), h).
Proof.
  intros He Hk. unfold _delete_class, pop, mbind, SE_bind.
  now rewrite He, (dict_get_not_in d _ Hk).
Qed.

Lemma delete_class_until pre : forall (h : heap) e post,
  NoDup pre ->
  (forall x, x ∈ pre ->
     exists d, h !! x = Some (ODict d) /\ "__class__" ∈ Dict.keys d) ->
  (exists d, strip_all pre h !! e = Some (ODict d)
             /\ "__class__" ∉ Dict.keys d) ->
  for_each _delete_class (HRef <$> (pre ++ e :: post)) h
  = (Raise (KeyError "__class__"), strip_all pre h).
Proof.
  induction pre as [|x pre IH]; intros h e post Hnd Hpre (d & He & Hk).
  - simpl. unfold mbind, SE_bind.
    now rewrite (delete_class_missing h e d He Hk).
  - apply NoDup_cons in Hnd as [Hx Hnd].
    destruct (Hpre x) as (dx & Hdx & Hkx); [now left|].
    change (strip_all (x :: pre) h) with (strip_all pre (strip_class h x))
      in *.
    rewrite <- app_comm_cons, fmap_cons. cbn [for_each].
    unfold mbind at 1, SE_bind at 1.
    rewrite (delete_class_element h x dx Hdx Hkx).
    unfold mbind at 1, SE_bind at 1.
    rewrite (IH (strip_class h x) e post); [reflexivity|exact Hnd| |].
    + intros y Hy. destruct (Hpre y) as (dy & Hdy & Hky); [now right|].
      exists dy. split; [|exact Hky].
      rewrite strip_class_other; [exact Hdy|].
      intros ->. contradiction.
    + exists d. split; [exact He|exact Hk].
Qed.

(** X5: the field-stripping handler stops at the first element that has
    no [__class__] entry when its turn comes: an object that never had
    one, or the second occurrence of an object that is in the list twice.
    It raises [KeyError('__class__')], and the elements before it have
    already lost their entry. *)
Theorem handle_gold_product_xml_info_key_error
    (limit a : nat) (pre : list nat) (e : nat) (post : list nat)
    (h : heap) (d : list (string * hval)) :
  h !! a = Some (OList (HRef <$> (pre ++ e :: post))) ->
  NoDup pre ->
  (forall x, x ∈ pre ->
     exists dx, h !! x = Some (ODict dx) /\ "__class__" ∈ Dict.keys dx) ->
  h !! e = Some (ODict d) ->
  ((¬ e ∈ pre) /\ (¬ "__class__" ∈ Dict.keys d))
  \/ (e ∈ pre /\ NoDup (Dict.keys d)) ->
  handle_gold_product_xml_info limit (HRef a) h
  = (Raise (KeyError "__class__"), strip_all pre h).
Proof.
  intros Ha Hnd Hpre He Hcase.
  unfold handle_gold_product_xml_info.
  unfold mbind at 1, SE_bind at 1. unfold elements. rewrite Ha.
  unfold mbind at 1, SE_bind at 1.
  rewrite (delete_class_until pre h e post Hnd Hpre); [reflexivity|].
  destruct Hcase as [[Hout Hk]|[Hin Hk]].
  - exists d. split; [|exact Hk]. now rewrite strip_all_other.
  - exists (Dict.remove d "__class__").
    split; [now apply strip_all_element|now apply dict_remove_keys].
Qed.

Lemma handle_gold_product_xml_info_key_error_witness :
  handle_gold_product_xml_info 2 (HRef 1)
    [ODict [("__class__", HScalar (PyStr "Gold"))]; OList [HRef 0; HRef 0]]
  = (Raise (KeyError "__class__"), [ODict []; OList [HRef 0; HRef 0]]).
Proof.
  assert (Hnd : NoDup [0]) by apply NoDup_singleton.
  apply (handle_gold_product_xml_info_key_error 2 1 [0] 0 []
           [ODict [("__class__", HScalar (PyStr "Gold"))];
            OList [HRef 0; HRef 0]]
           [("__class__", HScalar (PyStr "Gold"))] eq_refl Hnd).
  - intros x Hx. apply list_elem_of_singleton in Hx. subst x.
    eexists. split; [reflexivity|]. simpl. now left.
  - reflexivity.
  - right. split; [now left|]. simpl. apply NoDup_singleton.
Defined.

(** *** Reference cycles *)

Lemma mapM_result_ok_elem {A B} (f : A -> result B) l ys x :
  mapM_result f l = Ok ys -> x ∈ l -> exists y, f x = Ok y.
Proof.
  revert ys. induction l as [|x' l IH]; intros ys Hl Hx.
  - now apply elem_of_nil in Hx.
  - simpl in Hl. destruct (f x') as [y'|] eqn:Hf; [|discriminate].
    destruct (mapM_result f l) as [ys'|]; [|discriminate].
    apply elem_of_cons in Hx as [->|Hx]; [eauto|].
    eapply IH; eauto.
Qed.

Lemma mapM_result_cases {A B} (f : A -> result B) l e :
  (forall x, x ∈ l -> (exists y, f x = Ok y) \/ f x = Raise e) ->
  (exists ys, mapM_result f l = Ok ys) \/ mapM_result f l = Raise e.
Proof.
  induction l as [|x l IH]; intros Hf; simpl; [eauto|].
  destruct (Hf x) as [[y ->]| ->]; [now left| |now right].
  destruct IH as [[ys ->]| ->]; [|eauto|now right].
  intros x' Hx'. apply Hf. now right.
Qed.

Lemma reify_child limit (h : heap) a b t :
  reify (S limit) h (HRef a) = Ok t -> points_to h a b ->
  exists t', reify limit h (HRef b) = Ok t'.
Proof.
  unfold points_to. simpl.
  destruct (h !! a) as [[d|l]|]; [| |discriminate].
  - destruct (mapM_result _ d) as [es|] eqn:Hd; [|discriminate].
    intros _ Hb. apply list_elem_of_fmap in Hb as ([k v] & Hv & Hin).
    simpl in Hv. subst v.
    destruct (mapM_result_ok_elem _ _ _ _ Hd Hin) as [y Hy]. simpl in Hy.
    destruct (reify limit h (HRef b)) as [t'|]; [eauto|discriminate].
  - destruct (mapM_result _ l) as [vs|] eqn:Hl; [|discriminate].
    intros _ Hb. eapply mapM_result_ok_elem; eauto.
Qed.

Lemma reify_descend (h : heap) a b :
  tc (points_to h) a b ->
  forall limit t, reify limit h (HRef a) = Ok t ->
  exists limit' t', limit' < limit /\ reify limit' h (HRef b) = Ok t'.
Proof.
  induction 1 as [a b Hab|a c b Hac _ IH]; intros limit t Ht.
  - destruct limit as [|limit]; [discriminate|].
    destruct (reify_child _ _ _ _ _ Ht Hab) as [t' Ht'].
    exists limit, t'. split; [lia|exact Ht'].
  - destruct limit as [|limit]; [discriminate|].
    destruct (reify_child _ _ _ _ _ Ht Hac) as [tc Htc].
    destruct (IH _ _ Htc) as (limit' & t' & Hlt & Ht').
    exists limit', t'. split; [lia|exact Ht'].
Qed.

Lemma reify_cycle (h : heap) a :
  tc (points_to h) a a ->
  forall limit t, reify limit h (HRef a) <> Ok t.
Proof.
  intros Hcycle limit.
  induction limit as [limit IH] using lt_wf_ind. intros t Ht.
  destruct (reify_descend h a a Hcycle limit t Ht) as (limit' & t' & Hlt & Ht').
  exact (IH limit' Hlt t' Ht').
Qed.

Lemma reify_closed (h : heap) :
  closed h ->
  forall limit a, a < length h ->
    (exists t, reify limit h (HRef a) = Ok t)
    \/ reify limit h (HRef a) = Raise RecursionError.
Proof.
  intros Hclosed limit.
  induction limit as [|limit IH]; intros a Ha; [now right|].
  simpl. destruct (h !! a) as [[d|l]|] eqn:Hobj.
  - destruct (mapM_result_cases
                (fun e : string * hval =>
                   match reify limit h (snd e) with
                   | Ok t => Ok (fst e, t)
                   | Raise x => Raise x
                   end) d RecursionError) as [[es ->]| ->]; eauto.
    intros [k v] Hin. simpl. destruct v as [s|b]; [destruct limit; eauto|].
    destruct (IH b) as [[t ->]| ->]; eauto.
    apply (Hclosed a b). unfold points_to. rewrite Hobj.
    now apply (list_elem_of_fmap_2 snd) in Hin.
  - destruct (mapM_result_cases (reify limit h) l RecursionError)
      as [[vs ->]| ->]; eauto.
    intros v Hin. destruct v as [s|b]; [destruct limit; eauto|].
    apply IH. apply (Hclosed a b). unfold points_to. now rewrite Hobj.
  - apply lookup_ge_None_1 in Hobj. lia.
Qed.

(** X6: a decoded value from which a reference cycle can be reached is
    never turned into a tree: for every recursion limit the pass-through
    handler raises [RecursionError], and the store is as it was. *)
Theorem handle_skill_xml_info_cycle
    (limit : nat) (h : heap) (root a : nat) :
  closed h ->
  rtc (points_to h) root a ->
  tc (points_to h) a a ->
  handle_skill_xml_info limit (HRef root) h = (Raise RecursionError, h).
Proof.
  intros Hclosed Hreach Hcycle.
  rewrite handle_skill_xml_info_eq.
  assert (Hroot : root < length h).
  { assert (Hsome : exists b, points_to h root b).
    { inversion Hreach as [|? b ? Hb]; subst; [|eauto].
      inversion Hcycle; subst; eauto. }
    destruct Hsome as [b Hb]. unfold points_to in Hb.
    destruct (h !! root) eqn:Hobj; [|contradiction].
    now apply lookup_lt_Some in Hobj. }
  destruct (reify_closed h Hclosed limit root Hroot) as [[t Ht]| ->];
    [exfalso|reflexivity].
  apply rtc_tc in Hreach as [->|Hreach].
  - exact (reify_cycle h a Hcycle limit t Ht).
  - destruct (reify_descend h root a Hreach limit t Ht)
      as (limit' & t' & _ & Ht').
    exact (reify_cycle h a Hcycle limit' t' Ht').
Qed.

Lemma handle_skill_xml_info_cycle_witness :
  closed self_list
  /\ tc (points_to self_list) 0 0
  /\ handle_skill_xml_info 1000 (HRef 0) self_list
     = (Raise RecursionError, self_list).
Proof.
  assert (Hp : points_to self_list 0 0).
  { unfold points_to. simpl. now left. }
  assert (Hclosed : closed self_list).
  { intros a b Hab. unfold points_to in Hab.
    destruct a as [|a]; simpl in Hab; [|contradiction].
    apply list_elem_of_singleton in Hab. injection Hab as ->. simpl. lia. }
  assert (Hcycle : tc (points_to self_list) 0 0) by now apply tc_once.
  split; [exact Hclosed|]. split; [exact Hcycle|].
  exact (handle_skill_xml_info_cycle 1000 self_list 0 0 Hclosed
           (rtc_refl _ _) Hcycle).
Defined.

(** ** The Flash extraction *)

Section ExtractionProperties.

Variable str_strip : string -> string.
Variable zlib_decompress : bytes -> result bytes.
Variable swf_records : Type.
Variable extract_swf_data : bytes -> result swf_records.
Variable extract_binary_data : swf_records -> result (list (string * bytes)).
Variable AMF3Reader_read_object : bytes -> result (hval * heap).
Variable dict_to_xml : value -> result string.
Variable config_file_name : string -> string.
Variables (steps limit : nat).

Local Abbreviation content :=
  (segment_content zlib_decompress AMF3Reader_read_object dict_to_xml
     steps limit).
Local Abbreviation bytes_of :=
  (segment_bytes zlib_decompress AMF3Reader_read_object dict_to_xml
     steps limit).
Local Abbreviation write :=
  (write_segment zlib_decompress AMF3Reader_read_object dict_to_xml
     config_file_name steps limit).
Local Abbreviation write_all :=
  (write_segments zlib_decompress AMF3Reader_read_object dict_to_xml
     config_file_name steps limit).
Local Abbreviation path_of := (segment_path config_file_name).
Local Abbreviation flash :=
  (Flash zlib_decompress swf_records extract_swf_data extract_binary_data
     AMF3Reader_read_object dict_to_xml config_file_name steps limit).

Lemma segment_content_bytes key value w :
  fst (content key value w) = bytes_of key value
  /\ files (snd (content key value w)) = files w
  /\ responses (snd (content key value w)) = responses w.
Proof.
  unfold segment_bytes.
  destruct (bytes_eqb (take 2 value) zlib_magic) eqn:Hm.
  - rewrite segment_content_magic by exact Hm. simpl. auto.
  - rewrite segment_content_plain by exact Hm. simpl. auto.
Qed.

Lemma write_segment_ok dir key value w b :
  bytes_of key value = Ok b ->
  exists w1, write dir key value w = (Ok tt, w1)
             /\ files w1 = <[path_of dir key := b]> (files w)
             /\ responses w1 = responses w.
Proof.
  intros Hb. unfold write_segment, mbind, SE_bind.
  destruct (segment_content_bytes key value w) as (Hfst & Hfiles & Hresp).
  destruct (content key value w) as [r w0]. simpl in *. subst r.
  rewrite Hb. eexists. split; [reflexivity|]. simpl.
  now rewrite Hfiles, Hresp.
Qed.

Lemma write_segment_raise dir key value w e :
  bytes_of key value = Raise e ->
  exists w1, write dir key value w = (Raise e, w1)
             /\ files w1 = files w /\ responses w1 = responses w.
Proof.
  intros Hb. unfold write_segment, mbind, SE_bind.
  destruct (segment_content_bytes key value w) as (Hfst & Hfiles & Hresp).
  destruct (content key value w) as [r w0]. simpl in *. subst r.
  rewrite Hb. eexists. split; [reflexivity|]. auto.
Qed.

Lemma segment_bytes_cases key value :
  (exists b, bytes_of key value = Ok b)
  \/ (exists e, bytes_of key value = Raise e).
Proof. destruct (bytes_of key value); eauto. Qed.

(** X7: when two segments of a container get the same file name, the
    later one wins: after a run of the loop that completes, a file holds
    the bytes of the last segment written to its path, and a path no
    segment is written to holds what it held before. *)
Theorem write_segments_last_wins (dir : string)
    (swf_configs : list (string * bytes)) (w w' : world) (path : string) :
  write_all dir swf_configs w = (Ok tt, w') ->
  match
    last (filter (fun kv => path_of dir (fst kv) = path) swf_configs)
  with
  | Some (key, value) =>
      exists b, bytes_of key value = Ok b /\ files w' !! path = Some b
  | None => files w' !! path = files w !! path
  end.
Proof.
  revert w. induction swf_configs as [|[key value] rest IH]; intros w Hrun.
  - simpl in *. now inversion Hrun.
  - simpl in Hrun. unfold mbind, SE_bind in Hrun.
    destruct (segment_bytes_cases key value) as [[b Hb]|[e He]].
    + destruct (write_segment_ok dir key value w b Hb)
        as (w1 & Hw1 & Hfiles & _).
      rewrite Hw1 in Hrun. specialize (IH w1 Hrun).
      rewrite filter_cons. simpl.
      destruct (decide (path_of dir key = path)) as [Hp|Hp].
      * rewrite last_cons.
        destruct (last (filter _ rest)) as [[k v]|]; [exact IH|].
        exists b. split; [exact Hb|].
        rewrite IH, Hfiles, <- Hp. apply lookup_insert_eq.
      * destruct (last (filter _ rest)) as [[k v]|]; [exact IH|].
        rewrite IH, Hfiles. now apply lookup_insert_ne.
    + destruct (write_segment_raise dir key value w e He) as (w1 & Hw1 & _).
      rewrite Hw1 in Hrun. discriminate.
Qed.

Lemma write_segments_app dir l1 l2 w :
  write_all dir (l1 ++ l2) w
  = (write_all dir l1 ;; write_all dir l2) w.
Proof.
  revert w. induction l1 as [|[key value] l1 IH]; intros w; simpl.
  - reflexivity.
  - unfold mbind, SE_bind.
    destruct (write dir key value w) as [[[]|e] w1]; [|reflexivity].
    rewrite IH. reflexivity.
Qed.

(** X8: a segment that cannot be inflated, decoded or serialized stops
    the extraction: the error leaves the loop, the segments before it are
    written, and neither it nor any segment after it is. *)
Theorem write_segments_failure (dir key : string) (value : bytes)
    (pre post : list (string * bytes)) (w w1 : world) (e : exn) :
  write_all dir pre w = (Ok tt, w1) ->
  bytes_of key value = Raise e ->
  exists w2,
    write_all dir (pre ++ (key, value) :: post) w = (Raise e, w2)
    /\ files w2 = files w1.
Proof.
  intros Hpre He.
  destruct (write_segment_raise dir key value w1 e He) as (w2 & Hw2 & Hf & _).
  exists w2. split; [|exact Hf].
  rewrite write_segments_app. unfold mbind, SE_bind. rewrite Hpre.
  simpl. unfold mbind, SE_bind. now rewrite Hw2.
Qed.

Lemma write_segments_paths dir l : forall w path,
  files (snd (write_all dir l w)) !! path <> files w !! path ->
  exists key, key ∈ (fst <$> l) /\ path = path_of dir key.
Proof.
  induction l as [|[key value] rest IH]; intros w path Hchanged.
  - simpl in Hchanged. congruence.
  - simpl in Hchanged. unfold mbind, SE_bind in Hchanged.
    destruct (segment_bytes_cases key value) as [[b Hb]|[e He]].
    + destruct (write_segment_ok dir key value w b Hb)
        as (w1 & Hw1 & Hfiles & _).
      rewrite Hw1 in Hchanged.
      destruct (decide (path = path_of dir key)) as [->|Hne].
      * exists key. split; [now left|reflexivity].
      * destruct (IH w1 path) as (k & Hk & Hpath).
        { rewrite Hfiles, lookup_insert_ne by congruence. exact Hchanged. }
        exists k. split; [now right|exact Hpath].
    + destruct (write_segment_raise dir key value w e He)
        as (w1 & Hw1 & Hfiles & _).
      rewrite Hw1 in Hchanged. simpl in Hchanged. congruence.
Qed.

(** X9: [Flash.get_configs] makes one request, and whether it completes
    or stops with an error, every file it has created or changed is the
    file of a segment of the container, [<work_dir>/<name>.xml]. *)
Theorem Flash_get_configs_writes (dir : string) (w : world) (path : string) :
  let w' := snd (get_configs (flash dir) w) in
  responses w' = tail (responses w)
  /\ (files w' !! path <> files w !! path ->
      exists swf segments key,
        head (responses w) = Some (Ok swf)
        /\ extract_configs_from_swf zlib_decompress swf_records
             extract_swf_data extract_binary_data swf = Ok segments
        /\ key ∈ (fst <$> segments)
        /\ path = path_join dir (String.append (config_file_name key) ".xml")).
Proof.
  simpl. unfold Flash_get_configs, mbind, SE_bind, httpx_get, lift.
  destruct (responses w) as [|[swf|e] rest] eqn:Hresp; simpl.
  { split; [exact Hresp|]. intros H. exfalso. now apply H. }
  2: { split; [reflexivity|]. intros H. exfalso. now apply H. }
  destruct (extract_configs_from_swf _ _ _ _ swf) as [segments|e] eqn:Hx.
  2: { split; [reflexivity|]. intros H. exfalso. now apply H. }
  split.
  - assert (Hkeep : forall l w0,
              responses (snd (write_all dir l w0)) = responses w0).
    { induction l as [|[k v] l IHl]; intros w0; simpl; [reflexivity|].
      unfold mbind, SE_bind.
      destruct (segment_bytes_cases k v) as [[b Hb]|[e He]].
      - destruct (write_segment_ok dir k v w0 b Hb) as (w1 & Hw1 & _ & Hr).
        rewrite Hw1, IHl. exact Hr.
      - destruct (write_segment_raise dir k v w0 e He) as (w1 & Hw1 & _ & Hr).
        rewrite Hw1. exact Hr. }
    now rewrite Hkeep.
  - intros Hchanged.
    apply (write_segments_paths dir segments
             (World (files w) rest (trace w)) path) in Hchanged
      as (key & Hkey & ->).
    exists swf, segments, key. repeat split; auto.
Qed.

End ExtractionProperties.

(** ** The platforms and the update run *)

Section RunProperties.

Variable str_strip : string -> string.
Variable zlib_decompress : bytes -> result bytes.
Variable swf_records : Type.
Variable extract_swf_data : bytes -> result swf_records.
Variable extract_binary_data : swf_records -> result (list (string * bytes)).
Variable AMF3Reader_read_object : bytes -> result (hval * heap).
Variable dict_to_xml : value -> result string.
Variable config_file_name : string -> string.
Variables (steps limit : nat).

Local Abbreviation local_version := (get_local_version str_strip).
Local Abbreviation check := (check_update str_strip).
Local Abbreviation update := (update_platform str_strip).
Local Abbreviation update_all := (update_platforms str_strip).
Local Abbreviation flash :=
  (Flash zlib_decompress swf_records extract_swf_data extract_binary_data
     AMF3Reader_read_object dict_to_xml config_file_name steps limit).
Local Abbreviation run :=
  (main str_strip zlib_decompress swf_records extract_swf_data
     extract_binary_data AMF3Reader_read_object dict_to_xml config_file_name
     steps limit).

(** X10: what [save_remote_version] stores, [get_local_version] reads
    back as text, its line ends translated to line feeds, and stripped;
    [check_update] compares that string with the remote string as it
    comes.  Right after version [v] was saved, an update is reported
    unless the remote answers the stripped text-mode reading of [v]. *)
Theorem save_then_check_update (p : Platform) (w w1 : world)
    (version : string) :
  get_remote_version p w = (Ok version, w1) ->
  let w2 := snd (save_remote_version p w) in
  fst (save_remote_version p w) = Ok tt
  /\ local_version p w2
     = (Ok (str_strip (universal_newlines version)), w2)
  /\ forall remote w3,
       get_remote_version p w2 = (Ok remote, w3) ->
       check p w2
       = (Ok (negb (String.eqb (str_strip (universal_newlines version))
                      remote)), w3).
Proof.
  intros Hv. unfold save_remote_version, mbind, SE_bind. rewrite Hv. simpl.
  assert (Hlocal :
    local_version p
      (World (<[version_file_path p := encode_utf8 version]> (files w1))
         (responses w1) (trace w1))
    = (Ok (str_strip (universal_newlines version)),
       World (<[version_file_path p := encode_utf8 version]> (files w1))
         (responses w1) (trace w1))).
  { unfold get_local_version. simpl. rewrite lookup_insert_eq.
    unfold decode_utf8, encode_utf8.
    now rewrite string_of_list_byte_of_string. }
  split; [reflexivity|]. split; [exact Hlocal|].
  intros remote w3 Hr. unfold check_update. rewrite Hlocal.
  unfold mbind, SE_bind. now rewrite Hr.
Qed.

(** X11: on a platform that is out of date the commit and the version
    file take the remote version from different requests: the commit
    names the answer fetched at the top of the body of the loop, the
    version file stores the answer [save_remote_version] fetches after
    [get_configs] has returned. *)
Theorem update_platform_outdated (name : string) (p : Platform)
    (w wa wb wc wd : world) (first last : string) :
  get_remote_version p w = (Ok first, wa) ->
  check p wa = (Ok true, wb) ->
  get_configs p wb = (Ok tt, wc) ->
  get_remote_version p wc = (Ok last, wd) ->
  update name p w
  = (Ok tt,
     World (<[version_file_path p := encode_utf8 last]> (files wd))
       (responses wd) (trace wd ++ [EvCommit name first])).
Proof.
  intros Ha Hb Hc Hd.
  unfold update_platform, save_remote_version, mbind, SE_bind.
  rewrite Ha, Hb. simpl. rewrite Hc, Hd. reflexivity.
Qed.

Lemma update_platforms_app l1 l2 w :
  update_all (l1 ++ l2) w = (update_all l1 ;; update_all l2) w.
Proof.
  revert w. induction l1 as [|[name p] l1 IH]; intros w; simpl.
  - reflexivity.
  - unfold mbind, SE_bind.
    destruct (update name p w) as [[[]|e] w1]; [|reflexivity].
    rewrite IH. reflexivity.
Qed.

(** X12: a platform that fails ends the run: the platforms before it
    keep what they have saved and committed, the platforms after it are
    not looked at, and the error leaves [main]. *)
Theorem update_platforms_failure (name : string) (p : Platform)
    (pre post : list (string * Platform)) (w w1 w2 : world) (e : exn) :
  update_all pre w = (Ok tt, w1) ->
  update name p w1 = (Raise e, w2) ->
  update_all (pre ++ (name, p) :: post) w = (Raise e, w2).
Proof.
  intros Hpre Hp. rewrite update_platforms_app.
  unfold mbind, SE_bind. rewrite Hpre. simpl.
  unfold mbind, SE_bind. now rewrite Hp.
Qed.

(** *** The record of the calls *)

Lemma appends_ret {A} P (x : A) : appends P (mret x).
Proof. intros w. exists []. simpl. now rewrite app_nil_r. Qed.

Lemma appends_raise {A} P e : appends P (@raise world A e).
Proof. intros w. exists []. simpl. now rewrite app_nil_r. Qed.

Lemma appends_bind {A B} P (m : IO A) (f : A -> IO B) :
  appends P m -> (forall x, appends P (f x)) -> appends P (m ≫= f).
Proof.
  intros Hm Hf w. unfold mbind, SE_bind.
  destruct (Hm w) as (evs & Hevs & HP).
  destruct (m w) as [[x|e] w1]; simpl in *.
  - destruct (Hf x w1) as (evs' & Hevs' & HP').
    exists (evs ++ evs'). split.
    + now rewrite Hevs', Hevs, app_assoc.
    + now apply Forall_app.
  - exists evs. auto.
Qed.

Lemma appends_weaken {A} (P Q : event -> Prop) (m : IO A) :
  (forall e, P e -> Q e) -> appends P m -> appends Q m.
Proof.
  intros HPQ Hm w. destruct (Hm w) as (evs & Hevs & HP).
  exists evs. split; [exact Hevs|]. eapply Forall_impl; eauto.
Qed.

Lemma appends_log P e : P e -> appends P (log e).
Proof. intros He w. exists [e]. simpl. split; [reflexivity|]. now constructor. Qed.

Lemma appends_lift {A} P (r : result A) : appends P (lift r).
Proof. intros w. exists []. simpl. now rewrite app_nil_r. Qed.

Lemma appends_httpx_get P url : appends P (httpx_get url).
Proof.
  intros w. exists []. unfold httpx_get.
  destruct (responses w); simpl; now rewrite app_nil_r.
Qed.

Lemma appends_write_bytes P path b : appends P (write_bytes path b).
Proof. intros w. exists []. simpl. now rewrite app_nil_r. Qed.

Lemma appends_segment_content key value :
  appends decoder_call
    (segment_content zlib_decompress AMF3Reader_read_object dict_to_xml
       steps limit key value).
Proof.
  intros w. destruct (bytes_eqb (take 2 value) zlib_magic) eqn:Hm.
  - rewrite segment_content_magic by exact Hm. simpl.
    eexists. split; [reflexivity|].
    constructor; [exact I|].
    destruct (zlib_decompress value); repeat constructor.
  - rewrite segment_content_plain by exact Hm.
    exists []. simpl. now rewrite app_nil_r.
Qed.

(** The only calls [Flash.get_configs] records are calls of the
    decompressor and of the object reader. *)
Lemma appends_Flash_get_configs (dir : string) :
  appends decoder_call (get_configs (flash dir)).
Proof.
  simpl. unfold Flash_get_configs.
  apply appends_bind; [apply appends_httpx_get|]. intros swf.
  apply appends_bind; [apply appends_lift|]. intros segments.
  induction segments as [|[key value] rest IH]; simpl.
  - apply appends_ret.
  - apply appends_bind; [|intros; exact IH].
    unfold write_segment.
    apply appends_bind; [apply appends_segment_content|].
    intros b. apply appends_write_bytes.
Qed.

Lemma appends_check P (p : Platform) :
  appends P (get_remote_version p) -> appends P (check p).
Proof.
  intros Hr w. unfold check_update, get_local_version.
  destruct (files w !! version_file_path p).
  - apply (appends_bind P (get_remote_version p)); [exact Hr|].
    intros remote. apply appends_ret.
  - exists []. simpl. now rewrite app_nil_r.
Qed.

Lemma appends_update (name : string) (p : Platform) :
  appends not_push (get_remote_version p) ->
  appends not_push (get_configs p) ->
  appends not_push (update name p).
Proof.
  intros Hr Hc. unfold update_platform.
  apply appends_bind; [exact Hr|]. intros remote.
  apply appends_bind; [now apply appends_check|]. intros [|]; simpl.
  - apply appends_bind; [exact Hc|]. intros _.
    apply appends_bind.
    + unfold save_remote_version.
      apply appends_bind; [exact Hr|]. intros v. apply appends_write_bytes.
    + intros _. apply appends_log. discriminate.
  - apply appends_ret.
Qed.

Lemma appends_update_all (platforms : list (string * Platform)) :
  Forall (fun np => appends not_push (get_remote_version (snd np))
                    /\ appends not_push (get_configs (snd np))) platforms ->
  appends not_push (update_all platforms).
Proof.
  induction 1 as [|[name p] rest [Hr Hc] _ IH]; simpl.
  - apply appends_ret.
  - apply appends_bind; [now apply appends_update|]. intros _. exact IH.
Qed.

Lemma committed_is_commit e : committed e = true <-> is_commit e.
Proof.
  split.
  - destruct e; try discriminate. intros _. eexists _, _. reflexivity.
  - intros (n & v & ->). reflexivity.
Qed.

(** X13: [main] pushes exactly when the run went through and made at
    least one commit.  In particular a run that a platform ends with an
    error pushes nothing, also not the commits made before the error. *)
Theorem main_pushes_after_commit (html5 unity : Platform) (w : world) :
  appends not_push (get_remote_version html5) ->
  appends not_push (get_configs html5) ->
  appends not_push (get_remote_version unity) ->
  appends not_push (get_configs unity) ->
  exists evs,
    trace (snd (run html5 unity w)) = trace w ++ evs
    /\ (EvPush ∈ evs
        <-> fst (run html5 unity w) = Ok tt
            /\ exists e, e ∈ evs /\ is_commit e).
Proof.
  intros Hh1 Hh2 Hu1 Hu2. unfold main.
  set (platforms := [("flash", flash "flash"); ("html5", html5);
                     ("unity", unity)]).
  assert (Hall : appends not_push (update_all platforms)).
  { apply appends_update_all. repeat constructor; simpl; auto.
    - apply appends_bind; [apply appends_httpx_get|].
      intros text. apply appends_ret.
    - eapply appends_weaken; [|apply (appends_Flash_get_configs "flash")].
      intros [] He; try discriminate; destruct He. }
  destruct (Hall w) as (evs & Hevs & Hnp).
  assert (Hnopush : EvPush ∉ evs).
  { intros Hin. rewrite Forall_forall in Hnp. now apply (Hnp _ Hin). }
  destruct (update_all platforms w) as [[[]|e] w'] eqn:Hrun; simpl in Hevs.
  - rewrite Hevs, drop_app_length.
    destruct (existsb committed evs) eqn:Hc.
    + exists (evs ++ [EvPush]). simpl. rewrite Hevs, <- app_assoc.
      split; [reflexivity|]. split.
      * intros _. split; [reflexivity|].
        apply existsb_exists in Hc as (e & He & Hce).
        exists e. split; [|now apply committed_is_commit].
        apply elem_of_app. left. now apply list_elem_of_In.
      * intros _. apply elem_of_app. right. now left.
    + exists evs. simpl. split; [exact Hevs|]. split; [contradiction|].
      intros [_ (e & He & Hce)]. exfalso.
      assert (Htrue : existsb committed evs = true).
      { apply existsb_exists. exists e.
        split; [now apply list_elem_of_In|now apply committed_is_commit]. }
      congruence.
  - exists evs. simpl. split; [exact Hevs|]. split; [contradiction|].
    intros [Hok _]. discriminate.
Qed.

End RunProperties.

(** ** The downloader *)

Section DownloadProperties.

Variable path_div : string -> string -> string.

Local Abbreviation attempts := (download_attempts).
Local Abbreviation download := (download_data_async path_div).

(** X14: a request that fails with an error other than a status error
    is repeated.  After [k] such failures, [k] at most [max_retries], an
    answer is written to the file of the task, and [k + 1] requests have
    been made. *)
Theorem download_attempts_retry (max_retries k : nat) (url file_path : string)
    (content : bytes) (rest : list (result bytes)) (w : world) :
  k <= max_retries ->
  responses w = replicate k (Raise HTTPError) ++ Ok content :: rest ->
  attempts max_retries url file_path w
  = (Ok tt, World (<[file_path := content]> (files w)) rest (trace w)).
Proof.
  revert max_retries w.
  induction k as [|k IH]; intros max_retries w Hk Hresp.
  - destruct max_retries; simpl; unfold httpx_get; rewrite Hresp;
      reflexivity.
  - destruct max_retries as [|max_retries]; [lia|].
    simpl. unfold httpx_get. rewrite Hresp. simpl.
    apply (IH max_retries
             (World (files w)
                (replicate k (Raise HTTPError) ++ Ok content :: rest)
                (trace w))); [lia|reflexivity].
Qed.

Lemma download_attempts_exhausted (max_retries : nat) :
  forall (url file_path : string) (rest : list (result bytes)) (w : world),
  responses w = replicate (S max_retries) (Raise HTTPError) ++ rest ->
  attempts max_retries url file_path w
  = (Raise HTTPError, World (files w) rest (trace w)).
Proof.
  induction max_retries as [|n IH]; intros url file_path rest w Hresp.
  - simpl. unfold httpx_get. rewrite Hresp. reflexivity.
  - simpl. unfold httpx_get. rewrite Hresp. simpl.
    apply (IH url file_path rest
             (World (files w) (replicate (S n) (Raise HTTPError) ++ rest)
                (trace w))). reflexivity.
Qed.

(** X15: when [max_retries + 1] requests for a task in a row fail with
    an error other than a status error, the download stops with that
    error after exactly those requests: the file of the task is not
    written and the tasks after it are not asked for. *)
Theorem download_data_async_gives_up (max_retries : nat)
    (url filename output_dir : string) (tasks : list (string * string))
    (rest : list (result bytes)) (w : world) :
  responses w = replicate (S max_retries) (Raise HTTPError) ++ rest ->
  download ((url, filename) :: tasks) output_dir max_retries w
  = (Raise HTTPError, World (files w) rest (trace w)).
Proof.
  intros Hresp. simpl. unfold mbind, SE_bind.
  now rewrite (download_attempts_exhausted max_retries _ _ rest w Hresp).
Qed.

(** X16: an answer with an error status is not retried and does not end
    the download: the task is left without a file after one request, and
    the download goes on with the next task. *)
Theorem download_data_async_skips_status (max_retries : nat)
    (url filename output_dir : string) (tasks : list (string * string))
    (rest : list (result bytes)) (w : world) :
  responses w = Raise HTTPStatusError :: rest ->
  download ((url, filename) :: tasks) output_dir max_retries w
  = download tasks output_dir max_retries (World (files w) rest (trace w)).
Proof.
  intros Hresp. simpl. unfold mbind, SE_bind.
  destruct max_retries; simpl; unfold httpx_get; rewrite Hresp; reflexivity.
Qed.



Lemma download_attempts_files (retries_left : nat) :
  forall (url file_path : string) (w : world) (path : string),
  path <> file_path ->
  files (snd (attempts retries_left url file_path w)) !! path
  = files w !! path.
Proof.
  induction retries_left as [|n IH]; intros url file_path w path Hne; simpl;
    unfold httpx_get; destruct (responses w) as [|[content|e] rest];
    simpl; try reflexivity.
  1, 3: now apply lookup_insert_ne.
  - destruct (is_status_error e); [|destruct (is_http_error e)]; reflexivity.
  - destruct (is_status_error e); [reflexivity|].
    destruct (is_http_error e); [|reflexivity].
    now rewrite IH.
Qed.

(** X18: whether it completes or stops with an error, the downloader
    creates and changes no file but the files of its tasks,
    [output_dir / filename]. *)
Theorem download_data_async_files (max_retries : nat)
    (output_dir : string) (tasks : list (string * string)) (w : world)
    (path : string) :
  files (snd (download tasks output_dir max_retries w)) !! path
  <> files w !! path ->
  exists url filename,
    (url, filename) ∈ tasks /\ path = path_div output_dir filename.
Proof.
  revert w. induction tasks as [|[url filename] tasks IH]; intros w Hchanged.
  - simpl in Hchanged. congruence.
  - destruct (decide (path = path_div output_dir filename)) as [->|Hne].
    { exists url, filename. split; [now left|reflexivity]. }
    simpl in Hchanged. unfold mbind, SE_bind in Hchanged.
    pose proof (download_attempts_files max_retries url
                  (path_div output_dir filename) w path Hne) as Hkeep.
    destruct (attempts max_retries url (path_div output_dir filename) w)
      as [[[]|e] w1]; simpl in Hkeep.
    + destruct (IH w1) as (u & f & Hin & Hpath).
      { now rewrite Hkeep. }
      exists u, f. split; [now right|exact Hpath].
    + simpl in Hchanged. congruence.
Qed.

End DownloadProperties.

(** ** The HTML5 manifest *)

Lemma mapM_result_app {A B} (f : A -> result B) l1 l2 :
  mapM_result f (l1 ++ l2)
  = (ys1 ← mapM_result f l1; ys2 ← mapM_result f l2; mret (ys1 ++ ys2)).
Proof.
  induction l1 as [|x l1 IH]; simpl.
  - unfold mbind, result_bind, mret, result_ret.
    destruct (mapM_result f l2); reflexivity.
  - destruct (f x) as [y|e]; [|reflexivity]. rewrite IH.
    unfold mbind, result_bind, mret, result_ret.
    destruct (mapM_result f l1) as [ys1|e]; [|reflexivity].
    destruct (mapM_result f l2); reflexivity.
Qed.

Lemma mapM_result_fmap {A B C} (f : B -> result C) (g : A -> B) l :
  mapM_result f (g <$> l) = mapM_result (fun x => f (g x)) l.
Proof.
  induction l as [|x l IH]; [reflexivity|].
  rewrite fmap_cons. cbn [mapM_result].
  destruct (f (g x)); [|reflexivity]. now rewrite IH.
Qed.

Lemma mapM_result_ext {A B} (f g : A -> result B) l :
  (forall x, f x = g x) -> mapM_result f l = mapM_result g l.
Proof.
  intros Hfg. induction l as [|x l IH]; simpl; [reflexivity|].
  now rewrite Hfg, IH.
Qed.

Lemma mapM_result_length {A B} (f : A -> result B) l ys :
  mapM_result f l = Ok ys -> length ys = length l.
Proof.
  revert ys. induction l as [|x l IH]; intros ys; simpl.
  - now intros [= <-].
  - destruct (f x); [|discriminate].
    destruct (mapM_result f l) as [ys'|]; [|discriminate].
    intros [= <-]. simpl. f_equal. now apply IH.
Qed.

Lemma mapM_result_elem {A B} (f : A -> result B) l ys y :
  mapM_result f l = Ok ys -> y ∈ ys -> exists x, x ∈ l /\ f x = Ok y.
Proof.
  revert ys. induction l as [|x l IH]; intros ys; simpl.
  - intros [= <-] Hy. now apply elem_of_nil in Hy.
  - destruct (f x) as [y'|] eqn:Hf; [|discriminate].
    destruct (mapM_result f l) as [ys'|]; [|discriminate].
    intros [= <-] Hy. apply elem_of_cons in Hy as [->|Hy].
    + exists x. split; [now left|exact Hf].
    + destruct (IH ys' eq_refl Hy) as (x' & Hx' & Hfx').
      exists x'. split; [now right|exact Hfx'].
Qed.

Section ManifestProperties.

Variable httpx_URL : string -> result string.
Variable task_filename : string -> string -> result string.

Local Abbreviation tasks_of := (build_tasks httpx_URL task_filename).
Local Abbreviation leaf_task := (task_of_leaf httpx_URL task_filename).

Lemma build_tasks_cons key v rest path_parts :
  tasks_of (VDict ((key, v) :: rest)) path_parts
  = match v with
    | VDict _ =>
        nested ← tasks_of v (path_parts ++ [key]);
        tasks_local ← tasks_of (VDict rest) path_parts;
        mret (nested ++ tasks_local)
    | VScalar (PyStr s) =>
        task ← leaf_task path_parts ([], key, s);
        tasks_local ← tasks_of (VDict rest) path_parts;
        mret (task :: tasks_local)
    | _ => tasks_of (VDict rest) path_parts
    end.
Proof.
  destruct v as [[| | |s]|l|dv]; try reflexivity.
  unfold task_of_leaf. simpl. rewrite app_nil_r.
  unfold mbind, result_bind, mret, result_ret.
  destruct (httpx_URL _); [|reflexivity].
  destruct (task_filename _ key); reflexivity.
Qed.

Lemma string_leaves_cons key v rest :
  string_leaves (VDict ((key, v) :: rest))
  = match v with
    | VDict _ =>
        ((fun leaf : list string * string * string =>
            (key :: fst (fst leaf), snd (fst leaf), snd leaf))
           <$> string_leaves v) ++ string_leaves (VDict rest)
    | VScalar (PyStr s) => ([], key, s) :: string_leaves (VDict rest)
    | _ => string_leaves (VDict rest)
    end.
Proof. destruct v as [[| | |s]|l|dv]; reflexivity. Qed.

(** X19: [build_tasks] makes one task for every entry of the manifest
    that holds a string, in the order of the manifest, and none for an
    entry that holds anything but a string or a map.  The URL of a task
    is what [httpx.URL] makes of the base URL followed by the keys of
    the maps above the entry, without the first of [path_parts], and by
    the string; its file name is formed from that path and the key of
    the entry.  The first URL or file name that cannot be formed ends
    the walk with its error. *)
Theorem build_tasks_leaves (d : list (string * value))
    (path_parts : list string) :
  tasks_of (VDict d) path_parts
  = mapM_result (leaf_task path_parts) (string_leaves (VDict d)).
Proof.
  assert (Hall : forall t path_parts,
            match t with
            | VDict _ =>
                tasks_of t path_parts
                = mapM_result (leaf_task path_parts) (string_leaves t)
            | _ => True
            end); [|exact (Hall (VDict d) path_parts)].
  clear d path_parts.
  induction t as [s|l IH|d IH] using value_induction; intros path_parts;
    [exact I|exact I|].
  induction IH as [|[key v] rest Hv _ IHrest]; [reflexivity|].
  rewrite build_tasks_cons, string_leaves_cons.
  destruct v as [[| | |s]|l|dv]; try exact IHrest.
  - rewrite IHrest. simpl.
    unfold mbind, result_bind, mret, result_ret.
    destruct (leaf_task path_parts ([], key, s)); [|reflexivity].
    destruct (mapM_result _ _); reflexivity.
  - rewrite mapM_result_app, mapM_result_fmap.
    specialize (Hv (path_parts ++ [key])).
    change (tasks_of (VDict dv) (path_parts ++ [key])
            = mapM_result (leaf_task (path_parts ++ [key]))
                (string_leaves (VDict dv))) in Hv.
    rewrite Hv, IHrest.
    rewrite (mapM_result_ext
               (fun x : list string * string * string =>
                  leaf_task path_parts
                    (key :: fst (fst x), snd (fst x), snd x))
               (leaf_task (path_parts ++ [key]))); [reflexivity|].
    intros [[dirs k] s]. unfold task_of_leaf. simpl.
    now rewrite <- app_assoc.
Qed.

Lemma join_slash_cons part rest :
  rest <> [] ->
  join_slash (part :: rest) = String.append part (String "/" (join_slash rest)).
Proof. destruct rest; [contradiction|reflexivity]. Qed.

(** X20: every URL of a task of [HTML5.get_configs] is what
    [httpx.URL] makes of a text that starts with the HTML5 host and
    [resource/config/]. *)
Theorem build_tasks_urls (config : value) (tasks : list (string * string))
    (url filename : string) :
  tasks_of config ["files"; "resource"; "config"] = Ok tasks ->
  (url, filename) ∈ tasks ->
  exists rest,
    httpx_URL (String.append "https://seerh5.61.com/resource/config/" rest)
    = Ok url.
Proof.
  intros Htasks Hin.
  destruct config as [s|l|d]; try discriminate.
  rewrite build_tasks_leaves in Htasks.
  destruct (mapM_result_elem _ _ _ _ Htasks Hin) as ([[dirs k] s] & _ & Hleaf).
  unfold task_of_leaf in Hleaf. simpl in Hleaf.
  unfold mbind, result_bind, mret, result_ret in Hleaf.
  destruct (httpx_URL _) as [u|] eqn:Hu; [|discriminate].
  destruct (task_filename _ k); [|discriminate].
  injection Hleaf as <- _.
  exists (join_slash (dirs ++ [s])).
  assert (Hne : dirs ++ [s] <> []) by (destruct dirs; discriminate).
  destruct (dirs ++ [s]) as [|x xs] eqn:E; [contradiction|].
  exact Hu.
Qed.

End ManifestProperties.

Lemma build_tasks_urls_witness :
  build_tasks plain_url key_as_filename small_manifest
    ["files"; "resource"; "config"]
  = Ok [("https://seerh5.61.com/resource/config/a_1.json", "a.json");
        ("https://seerh5.61.com/resource/config/pet/b_2.json", "b.json")]
  /\ exists rest,
       plain_url
         (String.append "https://seerh5.61.com/resource/config/" rest)
       = Ok "https://seerh5.61.com/resource/config/pet/b_2.json".
Proof.
  split; [reflexivity|].
  apply (build_tasks_urls plain_url key_as_filename small_manifest
           [("https://seerh5.61.com/resource/config/a_1.json", "a.json");
            ("https://seerh5.61.com/resource/config/pet/b_2.json", "b.json")]
           "https://seerh5.61.com/resource/config/pet/b_2.json" "b.json"
           eq_refl).
  right. now left.
Defined.

(** ** The grouping handler when a category is not shared *)

Lemma bind_raise {A B} (m : M A) (f : A -> M B) (h h' : heap) e :
  m h = (Raise e, h') -> (m ≫= f) h = (Raise e, h').
Proof. intros Hm. unfold mbind, SE_bind. now rewrite Hm. Qed.

Section FieldKept.
Variables (x : nat) (v : option hval).

Lemma keeps_field_ret {A} (y : A) : keeps_field x v (mret y).
Proof. intros h Hh. exact Hh. Qed.

Lemma keeps_field_bind {A B} (m : M A) (f : A -> M B) :
  keeps_field x v m -> (forall y, keeps_field x v (f y)) ->
  keeps_field x v (m ≫= f).
Proof.
  intros Hm Hf h Hh. unfold mbind, SE_bind. specialize (Hm h Hh).
  destruct (m h) as [[y|e] h1]; simpl in *; [now apply Hf|exact Hm].
Qed.

Lemma subscript_store o k (h : heap) : snd (subscript o k h) = h.
Proof.
  unfold subscript. destruct o as [s|a]; [reflexivity|].
  destruct (h !! a) as [[d|l]|]; try reflexivity.
  destruct (Dict.get d k); reflexivity.
Qed.

Lemma keeps_field_subscript o k : keeps_field x v (subscript o k).
Proof. intros h Hh. now rewrite subscript_store. Qed.

Lemma keeps_field_hash_key o : keeps_field x v (hash_key o).
Proof. intros h Hh. destruct o; exact Hh. Qed.

Lemma keeps_field_new_list : keeps_field x v new_list.
Proof.
  intros h (d & Hd & Hv). exists d. split; [|exact Hv].
  simpl. now apply lookup_app_l_Some.
Qed.

Lemma keeps_field_setitem o k w :
  o <> HRef x \/ k <> "item" -> keeps_field x v (setitem o k w).
Proof.
  intros Hcase h (d & Hd & Hv). unfold setitem.
  destruct o as [s|a]; [now exists d|].
  destruct (h !! a) as [[da|la]|] eqn:Ha; try now exists d.
  simpl. destruct (decide (a = x)) as [->|Hne].
  - destruct Hcase as [Ho|Hk]; [congruence|].
    rewrite Hd in Ha. injection Ha as <-.
    exists (Dict.set d k w). split.
    + apply list_lookup_insert_eq. now apply lookup_lt_Some in Hd.
    + now rewrite dict_get_set_ne.
  - exists d. split; [|exact Hv]. now rewrite list_lookup_insert_ne.
Qed.

Lemma keeps_field_append o w : keeps_field x v (append o w).
Proof.
  intros h (d & Hd & Hv). unfold append.
  destruct o as [s|a]; [now exists d|].
  destruct (h !! a) as [[da|la]|] eqn:Ha; try now exists d.
  simpl. exists d. split; [|exact Hv].
  rewrite list_lookup_insert_ne; [exact Hd|]. congruence.
Qed.

(** A pass of the loop for a pair of another category leaves the [item]
    entry of the object at [x] as it is. *)
Lemma item_body_keeps_field obj result (h : heap) :
  (forall c, fst (subscript obj "catObj" h) = Ok c -> c <> HRef x) ->
  item_field h x v ->
  item_field (snd (item_body obj result h)) x v.
Proof.
  intros Hcat Hh. unfold item_body. unfold mbind at 1, SE_bind at 1.
  pose proof (subscript_store obj "catObj" h) as Hstore.
  destruct (subscript obj "catObj" h) as [[cat_obj|e] h1]; simpl in *;
    subst h1; [|exact Hh].
  specialize (Hcat cat_obj eq_refl). revert h Hh.
  apply keeps_field_bind; [apply keeps_field_subscript|]. intros cat_id.
  apply keeps_field_bind; [apply keeps_field_hash_key|]. intros key.
  apply keeps_field_bind.
  { destruct (contains result key); [apply keeps_field_ret|].
    apply keeps_field_bind; [apply keeps_field_new_list|]. intros empty.
    apply keeps_field_bind; [|intros; apply keeps_field_ret].
    apply keeps_field_setitem. now left. }
  intros result'.
  apply keeps_field_bind; [apply keeps_field_subscript|]. intros item.
  apply keeps_field_bind.
  { apply keeps_field_setitem. right. discriminate. }
  intros _.
  apply keeps_field_bind; [apply keeps_field_subscript|]. intros items.
  apply keeps_field_bind; [apply keeps_field_append|].
  intros; apply keeps_field_ret.
Qed.

End FieldKept.

Section ItemKeyError.
Variables (h0 : heap) (good : list pair_entry) (bad : pair_entry)
  (post : list pair_entry) (a : nat).
Hypothesis Hdata :
  h0 !! a = Some (OList (HRef <$> (pair_addr <$> (good ++ bad :: post)))).
Hypothesis Hgood : pairs_in h0 good.
Hypothesis Hbad : pairs_in h0 [bad].
Hypothesis Hshare : one_object_per_category good.
Hypothesis Hitems : one_category_per_item good.
Hypothesis Hrepeat :
  exists f, f ∈ good /\ key_eqb (cat_id f) (cat_id bad) = true.
Hypothesis Hother : cat_addr bad ∉ cat_addr <$> good.
Hypothesis Hnoitem : item_field h0 (cat_addr bad) None.

Lemma iter_next_data done h firsts i :
  grouping_inv h0 good done h firsts ->
  iter_next (HRef a) i h
  = (Ok (HRef <$> (pair_addr <$> (good ++ bad :: post) !! i)), h).
Proof.
  intros Hinv. unfold iter_next.
  rewrite (inv_lists _ _ _ _ _ Hinv _ _ Hdata).
  now rewrite !list_lookup_fmap.
Qed.

(** The pass for the pair whose category object was never registered. *)
Lemma item_body_bad h firsts :
  grouping_inv h0 good good h firsts ->
  item_field h (cat_addr bad) None ->
  fst (item_body (HRef (pair_addr bad)) (result_entry <$> firsts) h)
  = Raise (KeyError "item").
Proof.
  intros Hinv (dcb & Hdcb & Hnone).
  destruct (Hbad bad) as ((dp0 & Hp0 & Hcat0 & Hitem0) & (dc0 & Hc0 & Hid0)
                          & (dt0 & Ht0)); [now left|].
  destruct (inv_dicts _ _ _ _ _ Hinv _ _ Hp0) as (dp & Hp & Hsame_p).
  destruct (inv_dicts _ _ _ _ _ Hinv _ _ Hc0) as (dc & Hc & Hsame_c).
  destruct (inv_dicts _ _ _ _ _ Hinv _ _ Ht0) as (dt & Ht & _).
  assert (Hcontains :
    contains (result_entry <$> firsts) (cat_id bad) = true).
  { destruct Hrepeat as (f & Hf & Hkey).
    pose proof (inv_firsts_cover _ _ _ _ _ Hinv f Hf) as Hcover.
    apply list_elem_of_fmap in Hcover as (f' & Heq & Hf').
    pose proof (inv_firsts_in _ _ _ _ _ Hinv f' Hf') as Hf'good.
    unfold contains. apply existsb_exists. exists (result_entry f').
    split; [apply list_elem_of_In; now apply list_elem_of_fmap_2|].
    simpl.
    rewrite (same_category_same_id h0 good Hgood f f' Hf Hf'good)
      by congruence.
    exact Hkey. }
  unfold item_body.
  erewrite bind_ok; cycle 1.
  { eapply subscript_dict; [exact Hp|].
    rewrite Hsame_p by discriminate. exact Hcat0. }
  erewrite bind_ok; cycle 1.
  { eapply subscript_dict; [exact Hc|].
    rewrite Hsame_c by discriminate. exact Hid0. }
  erewrite bind_ok; [|reflexivity].
  rewrite Hcontains.
  erewrite bind_ok; [|reflexivity].
  erewrite bind_ok; cycle 1.
  { eapply subscript_dict; [exact Hp|].
    rewrite Hsame_p by discriminate. exact Hitem0. }
  erewrite bind_ok; cycle 1.
  { eapply setitem_dict. exact Ht. }
  assert (Hkeep : "CatID" <> "item") by discriminate.
  pose proof (keeps_field_setitem (cat_addr bad) None
                (HRef (item_addr bad)) "CatID" (HScalar (cat_id bad))
                (or_intror Hkeep) h
                (ex_intro _ dcb (conj Hdcb Hnone))) as Hfield.
  rewrite (setitem_dict h _ dt _ _ Ht) in Hfield. simpl in Hfield.
  destruct Hfield as (d2 & Hd2 & Hn2).
  erewrite bind_raise; [reflexivity|].
  unfold subscript. rewrite Hd2, Hn2. reflexivity.
Qed.

(** The loop up to the pair whose category object was never
    registered. *)
Lemma item_loop_bad todo : forall done h firsts steps,
  good = done ++ todo ->
  grouping_inv h0 good done h firsts ->
  item_field h (cat_addr bad) None ->
  length todo < steps ->
  fst (item_loop steps (HRef a) (length done) (result_entry <$> firsts) h)
  = Raise (KeyError "item").
Proof.
  induction todo as [|e todo IH];
    intros done h firsts steps Hes Hinv Hfield Hsteps.
  - destruct steps as [|steps]; [simpl in Hsteps; lia|].
    rewrite app_nil_r in Hes. subst done. simpl.
    erewrite bind_ok; [|eapply iter_next_data; exact Hinv].
    rewrite list_lookup_middle by reflexivity. simpl.
    pose proof (item_body_bad h firsts Hinv Hfield) as Hbody.
    unfold mbind, SE_bind.
    destruct (item_body _ _ h) as [[r|x] h1]; simpl in Hbody;
      [discriminate|]. simpl. now injection Hbody as ->.
  - destruct steps as [|steps]; [simpl in Hsteps; lia|].
    simpl in Hsteps.
    assert (He : e ∈ good).
    { rewrite Hes. apply elem_of_app. right. now left. }
    assert (Hdone : forall e', e' ∈ done -> e' ∈ good).
    { intros e' He'. rewrite Hes. apply elem_of_app. now left. }
    destruct (item_body_step h0 good Hgood Hshare Hitems done h firsts e
                Hinv Hdone He) as (h1 & Hbody & Hinv1).
    assert (Hfield1 : item_field h1 (cat_addr bad) None).
    { pose proof (item_body_keeps_field (cat_addr bad) None
                    (HRef (pair_addr e)) (result_entry <$> firsts) h)
        as Hkeep.
      rewrite Hbody in Hkeep. apply Hkeep; [|exact Hfield].
      destruct (Hgood e He) as ((dp0 & Hp0 & Hcat0 & _) & _).
      destruct (inv_dicts _ _ _ _ _ Hinv _ _ Hp0) as (dp & Hp & Hsame).
      erewrite subscript_dict;
        [|exact Hp|rewrite Hsame by discriminate; exact Hcat0].
      simpl. intros c [= <-] [= Heq]. apply Hother. rewrite <- Heq.
      now apply list_elem_of_fmap_2. }
    assert (Hnext : (good ++ bad :: post) !! length done = Some e).
    { rewrite Hes, <- app_assoc. now apply list_lookup_middle. }
    simpl.
    erewrite bind_ok; [|eapply iter_next_data; exact Hinv].
    rewrite Hnext. simpl.
    erewrite bind_ok; [|exact Hbody].
    specialize (IH (done ++ [e]) h1 (register_entry firsts e) steps).
    rewrite length_app in IH. simpl in IH.
    replace (S (length done)) with (length done + 1) by lia.
    apply IH; [now rewrite <- app_assoc|exact Hinv1|exact Hfield1|lia].
Qed.

(** X21: the grouping handler fails as soon as a category ID that is
    already registered comes with another category object that has no
    [item] entry: the pairs before it are grouped, and the append for
    this pair raises [KeyError('item')]. *)
Theorem handle_item_xml_info_key_error (steps limit : nat) :
  length good < steps ->
  fst (handle_item_xml_info steps limit (HRef a) h0)
  = Raise (KeyError "item").
Proof.
  intros Hsteps.
  pose proof (item_loop_bad good [] h0 [] steps eq_refl
                (grouping_inv_start h0 good) Hnoitem Hsteps) as Hloop.
  unfold handle_item_xml_info, mbind, SE_bind.
  simpl in Hloop.
  destruct (item_loop steps (HRef a) 0 [] h0) as [[r|x] h1];
    simpl in Hloop; [discriminate|]. simpl. now injection Hloop as ->.
Qed.

End ItemKeyError.

Lemma handle_item_xml_info_key_error_witness :
  fst (handle_item_xml_info 2 3 (HRef 9) three_pairs)
  = Raise (KeyError "item").
Proof.
  apply (handle_item_xml_info_key_error three_pairs [first_pair]
           second_pair [third_pair] 9 eq_refl).
  - intros e He. apply list_elem_of_singleton in He. subst e.
    (split; [|split]); eexists; simpl; eauto.
  - intros e He. apply list_elem_of_singleton in He. subst e.
    (split; [|split]); eexists; simpl; eauto.
  - intros e e' He He' _.
    apply list_elem_of_singleton in He, He'. now subst.
  - intros e e' He He' _.
    apply list_elem_of_singleton in He, He'. now subst.
  - exists first_pair. split; [now left|reflexivity].
  - simpl. intros H. apply list_elem_of_singleton in H. discriminate.
  - eexists. split; reflexivity.
  - simpl. lia.
Defined.

(** ** Further sample runs *)

Lemma write_segments_last_wins_witness :
  exists b,
    segment_bytes stored_inflate one_record_object fixed_markup 1 2
      "a" [Byte.x02] = Ok b
    /\ files (snd (write_segments stored_inflate one_record_object
                     fixed_markup same_name 1 2 "flash" twice_named
                     empty_world)) !! "flash/a.xml"
       = Some b.
Proof.
  exact (write_segments_last_wins stored_inflate one_record_object
           fixed_markup same_name 1 2 "flash" twice_named empty_world
           (snd (write_segments stored_inflate one_record_object
                   fixed_markup same_name 1 2 "flash" twice_named
                   empty_world))
           "flash/a.xml" eq_refl).
Defined.

Lemma write_segments_failure_witness :
  exists w2,
    write_segments corrupt_container one_record_object fixed_markup
      same_name 1 2 "flash" one_corrupt empty_world
    = (Raise (ExternalError "corrupt container"), w2)
    /\ files w2 = {[ "flash/a.xml" := [Byte.x01] ]}.
Proof.
  destruct (write_segments_failure corrupt_container one_record_object
              fixed_markup same_name 1 2 "flash" "b" [Byte.x78; Byte.xda]
              [("a", [Byte.x01])] [("c", [Byte.x03])] empty_world
              (World {[ "flash/a.xml" := [Byte.x01] ]} [] [])
              (ExternalError "corrupt container") eq_refl eq_refl)
    as (w2 & Hrun & Hfiles).
  exists w2. split; [exact Hrun|exact Hfiles].
Defined.

Lemma Flash_get_configs_writes_witness :
  responses (snd (get_configs empty_flash updating_world))
  = [Ok (encode_utf8 "2"); Ok []; Ok (encode_utf8 "3")].
Proof.
  exact (proj1 (Flash_get_configs_writes stored_inflate bytes stored_inflate
                  no_segments no_object fixed_markup same_name 1 1 "flash"
                  updating_world "flash/a.xml")).
Defined.

Lemma save_then_check_update_witness :
  get_local_version same_name broken_flash
    (snd (save_remote_version broken_flash two_lines_world))
  = (Ok (String "1" (String line_feed "2")),
     snd (save_remote_version broken_flash two_lines_world))
  /\ fst (check_update same_name broken_flash
            (snd (save_remote_version broken_flash two_lines_world)))
     = Ok true.
Proof.
  destruct (save_then_check_update same_name broken_flash two_lines_world
              _ two_lines eq_refl) as (_ & Hlocal & Hcheck).
  split; [exact Hlocal|].
  now rewrite (Hcheck two_lines _ eq_refl).
Defined.

Lemma update_platform_outdated_witness :
  update_platform same_name "flash" empty_flash updating_world
  = (Ok tt,
     World (<["flash/.version" := encode_utf8 "3"]>
              {[ "flash/.version" := encode_utf8 "1" ]})
       [] [EvCommit "flash" "2"]).
Proof.
  exact (update_platform_outdated same_name "flash" empty_flash
           updating_world _ _ _ _ "2" "3" eq_refl eq_refl eq_refl eq_refl).
Defined.

Lemma update_platforms_failure_witness :
  fst (update_platforms same_name
         ([("flash", empty_flash)]
            ++ ("html5", silent_platform "html5")
            :: [("unity", silent_platform "unity")])
         updating_world)
  = Raise (ExternalError "network").
Proof.
  erewrite (update_platforms_failure same_name "html5"
              (silent_platform "html5") [("flash", empty_flash)]
              [("unity", silent_platform "unity")] updating_world);
    reflexivity.
Defined.

Lemma main_pushes_after_commit_witness :
  exists evs,
    trace (snd (main same_name stored_inflate bytes stored_inflate
                  no_segments no_object fixed_markup same_name 1 1
                  (silent_platform "html5") (silent_platform "unity")
                  updating_world))
    = trace updating_world ++ evs
    /\ ~ EvPush ∈ evs.
Proof.
  destruct (main_pushes_after_commit same_name stored_inflate bytes
              stored_inflate no_segments no_object fixed_markup same_name
              1 1 (silent_platform "html5") (silent_platform "unity")
              updating_world
              (appends_raise not_push _) (appends_ret not_push tt)
              (appends_raise not_push _) (appends_ret not_push tt))
    as (evs & Hevs & Hpush).
  exists evs. split; [exact Hevs|].
  intros Hin. apply Hpush in Hin as [Hok _]. discriminate Hok.
Defined.

Lemma download_attempts_retry_witness :
  download_attempts 2 "u" "f"
    (World ∅ [Raise HTTPError; Raise HTTPError; Ok [Byte.x31]] [])
  = (Ok tt, World (<["f" := [Byte.x31]]> ∅) [] []).
Proof.
  assert (H : 2 <= 2) by lia.
  exact (download_attempts_retry 2 2 "u" "f" [Byte.x31] []
           (World ∅ [Raise HTTPError; Raise HTTPError; Ok [Byte.x31]] [])
           H eq_refl).
Defined.

Lemma download_data_async_gives_up_witness :
  download_data_async path_join [("u", "a"); ("v", "b")] "html5" 2
    flaky_world
  = (Raise HTTPError, World ∅ [Ok [Byte.x31]] []).
Proof.
  exact (download_data_async_gives_up path_join 2 "u" "a" "html5"
           [("v", "b")] [Ok [Byte.x31]] flaky_world eq_refl).
Defined.

Lemma download_data_async_skips_status_witness :
  download_data_async path_join [("u", "a"); ("v", "b")] "html5" 2
    (World ∅ [Raise HTTPStatusError; Ok [Byte.x31]] [])
  = (Ok tt, World (<["html5/b" := [Byte.x31]]> ∅) [] []).
Proof.
  rewrite (download_data_async_skips_status path_join 2 "u" "a" "html5"
             [("v", "b")] [Ok [Byte.x31]]
             (World ∅ [Raise HTTPStatusError; Ok [Byte.x31]] []) eq_refl).
  reflexivity.
Defined.

Lemma download_data_async_files_witness :
  exists url filename,
    (url, filename) ∈ [("u", "a"); ("v", "b")]
    /\ "html5/b" = path_join "html5" filename.
Proof.
  apply (download_data_async_files path_join 2 "html5"
           [("u", "a"); ("v", "b")]
           (World ∅ [Raise HTTPStatusError; Ok [Byte.x31]] []) "html5/b").
  vm_compute. discriminate.
Defined.
